(** * Botbase backend: the RAG ingestion and retrieval pipeline

    A shallow embedding of [server/rag.ts], of the storage functions of
    [server/db.ts] it calls, of [checkUsageLimits] from [server/billing.ts]
    and of the retrieval segment of [chatRouter.sendMessage], followed by the
    properties established about them.

    Conventions of the embedding:
    - a JavaScript string is the list of its UTF-16 code units, so that
      [length] is the [.length] of the source;
    - JavaScript numbers that hold sizes, offsets, identifiers and budgets are
      integers of [Z]; similarity scores are rationals of [Q] (no NaN, no
      rounding: only their order is used);
    - asynchronous, throwing code runs in a state-and-exception monad over a
      [World] that holds the tables, the outcome of the successive queries,
      the clock and the log of the requests sent to the language model. *)

From Stdlib Require Import ZArith NArith List Lia String Ascii QArith Bool.
From Stdlib Require Import Sorting.Sorted Sorting.Permutation.
From Stdlib Require Import Numbers.DecimalString.
From stdpp Require Import base gmap.

Import ListNotations.
Local Open Scope Z_scope.

(* ===================================================================== *)
(** ** JavaScript strings *)
(* ===================================================================== *)

Module JsString.

Definition code_unit := N.
Definition jsstring := list code_unit.

(** The code units of an ASCII literal. *)
Definition js (s : string) : jsstring :=
  List.map N_of_ascii (list_ascii_of_string s).

(** [s.length] *)
Definition len (s : jsstring) : Z := Z.of_nat (length s).

(** ECMAScript WhiteSpace and LineTerminator: what [\s] matches and what
    [trim] removes. *)
Definition is_white_space (c : code_unit) : bool :=
  match c with
  | 9 | 10 | 11 | 12 | 13 | 32 | 160 | 5760 | 8232 | 8233 | 8239 | 8287
  | 12288 | 65279 => true
  | _ => (8192 <=? c) && (c <=? 8202)
  end%N.

Fixpoint trimStart (s : jsstring) : jsstring :=
  match s with
  | c :: s' => if is_white_space c then trimStart s' else s
  | [] => []
  end.

Definition trimEnd (s : jsstring) : jsstring := rev (trimStart (rev s)).

(** [s.trim()] *)
Definition trim (s : jsstring) : jsstring := trimEnd (trimStart s).

(** [s.substring(a, b)]: both bounds are clamped to [0, s.length] and
    swapped when they come in the wrong order. *)
Definition substring (s : jsstring) (a b : Z) : jsstring :=
  let a' := Z.min (Z.max a 0) (len s) in
  let b' := Z.min (Z.max b 0) (len s) in
  let from := Z.min a' b' in
  let to := Z.max a' b' in
  firstn (Z.to_nat (to - from)) (skipn (Z.to_nat from) s).

(** The characters of [s] that are not white space, in order. *)
Definition non_space (s : jsstring) : jsstring :=
  List.filter (fun c => negb (is_white_space c)) s.

(** [n.toString()] for a non-negative integer. *)
Definition digits (n : nat) : jsstring :=
  js (NilZero.string_of_uint (Nat.to_uint n)).

End JsString.
Import JsString.

(* ===================================================================== *)
(** ** Text segmenter ([rag.ts], document chunking) *)
(* ===================================================================== *)

Module Segmenter.

(** *** Fixed-width mode: [chunkDocument] *)

(** The [while] loop of [chunkDocument], entered at its test with the
    current [start] and [chunks].  One unit of [fuel] is one evaluation of
    the loop test; [None] means the fuel ran out. *)
Fixpoint chunk_loop (fuel : nat) (content : jsstring) (chunkSize overlap : Z)
    (start : Z) (chunks : list jsstring) : option (list jsstring) :=
  match fuel with
  | O => None
  | S fuel' =>
      if start <? len content then
        let end_ := Z.min (start + chunkSize) (len content) in
        let chunk := trim (substring content start end_) in
        let chunks' := if 0 <? len chunk then chunks ++ [chunk] else chunks in
        let start' := end_ - overlap in
        if start' <? 0 then Some chunks'
        else chunk_loop fuel' content chunkSize overlap start' chunks'
      else Some chunks
  end.

Definition chunkDocument (fuel : nat) (content : jsstring)
    (chunkSize overlap : Z) : option (list jsstring) :=
  match content with
  | [] => Some []
  | _ =>
      match chunk_loop fuel content chunkSize overlap 0 [] with
      | Some chunks => Some (if 0 <? Z.of_nat (length chunks) then chunks else [content])
      | None => None
      end
  end.

(** *** Sentence mode: [splitBySentences] and [intelligentChunk] *)

Definition is_terminator (c : code_unit) : bool :=
  match c with
  | 46 | 33 | 63 => true   (* . ! ? *)
  | _ => false
  end%N.

Definition push_front (c : code_unit) (pieces : list jsstring) : list jsstring :=
  match pieces with
  | p :: ps => (c :: p) :: ps
  | [] => [[c]]
  end.

(** [content.split(/(?<=[.!?])\s+/)] read from the left.  [afterTerm] says
    that the previous character is one of [.!?]; [inSep] that the previous
    character belongs to a separator already matched (the [\s+] is greedy,
    so the separator extends over the whole run of white space).  The head
    of the result is the piece being read. *)
Fixpoint split_from (afterTerm inSep : bool) (s : jsstring) : list jsstring :=
  match s with
  | [] => [[]]
  | c :: s' =>
      if is_white_space c then
        if inSep then split_from false true s'
        else if afterTerm then [] :: split_from false true s'
        else push_front c (split_from false false s')
      else push_front c (split_from (is_terminator c) false s')
  end.

Definition split_sentences_regex (content : jsstring) : list jsstring :=
  split_from false false content.

Definition splitBySentences (content : jsstring) : list jsstring :=
  List.filter (fun s => 0 <? len (trim s)) (split_sentences_regex content).

(** [`${currentChunk} ${sentence}`] *)
Definition join_space (a b : jsstring) : jsstring := a ++ 32%N :: b.

(** The [for] loop of [intelligentChunk] over the remaining sentences. *)
Fixpoint chunk_sentences (target : Z) (chunks : list jsstring)
    (currentChunk : jsstring) (sentences : list jsstring)
    : list jsstring * jsstring :=
  match sentences with
  | [] => (chunks, currentChunk)
  | sentence :: rest =>
      let testChunk :=
        match currentChunk with
        | [] => sentence
        | _ => join_space currentChunk sentence
        end in
      if len testChunk <=? target then
        chunk_sentences target chunks testChunk rest
      else
        let chunks' :=
          match currentChunk with [] => chunks | _ => chunks ++ [currentChunk] end in
        chunk_sentences target chunks' sentence rest
  end.

Definition intelligentChunk (content : jsstring) (targetChunkSize : Z)
    : list jsstring :=
  let '(chunks, currentChunk) :=
    chunk_sentences targetChunkSize [] [] (splitBySentences content) in
  match currentChunk with
  | [] => chunks
  | _ => chunks ++ [currentChunk]
  end.

End Segmenter.

(* ===================================================================== *)
(** ** Input sanitizer ([rag.ts], prompt injection prevention) *)
(* ===================================================================== *)

Module Sanitizer.

Fixpoint starts_with (p s : jsstring) : bool :=
  match p, s with
  | [], _ => true
  | a :: p', b :: s' => (a =? b)%N && starts_with p' s'
  | _ :: _, [] => false
  end.

(** What follows the first occurrence of [closer] in [s], if there is one. *)
Fixpoint find_after (closer s : jsstring) : option jsstring :=
  if starts_with closer s then Some (skipn (length closer) s)
  else match s with
       | [] => None
       | _ :: s' => find_after closer s'
       end.

(** [s.replace(/OPENER[\s\S]*?CLOSER/g, '')] read from the left: at a
    position where [opener] starts and [closer] occurs later, the lazy
    [[\s\S]*?] stops at the first such [closer], the whole match is dropped
    and the scan resumes behind it; elsewhere one character is copied.
    Each step consumes at least one character, so [length s] steps are
    enough. *)
Fixpoint remove_matches (fuel : nat) (opener closer s : jsstring) : jsstring :=
  match fuel with
  | O => s
  | S fuel' =>
      match s with
      | [] => []
      | c :: s' =>
          if starts_with opener s then
            match find_after closer (skipn (length opener) s) with
            | Some rest => remove_matches fuel' opener closer rest
            | None => c :: remove_matches fuel' opener closer s'
            end
          else c :: remove_matches fuel' opener closer s'
      end
  end.

Definition replace_all (opener closer s : jsstring) : jsstring :=
  remove_matches (length s) opener closer s.

Definition fence : jsstring := js "```".
Definition open_braces : jsstring := js "{{".
Definition close_braces : jsstring := js "}}".
Definition open_interp : jsstring := js "${".
Definition close_interp : jsstring := js "}".

Definition strip_regions (input : jsstring) : jsstring :=
  replace_all open_interp close_interp
    (replace_all open_braces close_braces
      (replace_all fence fence input)).

Definition sanitizeUserInput (input : jsstring) : jsstring :=
  match input with
  | [] => []
  | _ =>
      let sanitized := trim (strip_regions input) in
      if 5000 <? len sanitized then substring sanitized 0 5000 else sanitized
  end.

End Sanitizer.

(* ===================================================================== *)
(** ** Values exchanged with the collaborators *)
(* ===================================================================== *)

Module Js.

(** Provider responses and [jsonb] columns. *)
#[local] Set Warnings "-register-all".
Inductive json :=
| JUndefined
| JNull
| JBool (b : bool)
| JNum (q : Q)
| JStr (s : jsstring)
| JArr (items : list json)
| JObj (fields : list (jsstring * json)).
#[local] Set Warnings "+register-all".

Fixpoint assoc (key : jsstring) (fields : list (jsstring * json)) : json :=
  match fields with
  | [] => JUndefined
  | (k, v) :: rest => if bool_decide (k = key) then v else assoc key rest
  end.

(** [v?.key] for a key that no prototype defines: [undefined] on [null],
    [undefined] and on every value that is not an object holding [key]. *)
Definition opt_field (key : jsstring) (v : json) : json :=
  match v with
  | JObj fields => assoc key fields
  | _ => JUndefined
  end.

(** [v?.[0]] *)
Definition opt_first (v : json) : json :=
  match v with
  | JArr (x :: _) => x
  | JStr (c :: _) => JStr [c]
  | JObj fields => assoc (js "0") fields
  | _ => JUndefined
  end.

(** A thrown value: an [Error] with its message, or anything else. *)
Inductive exn :=
| Error (message : jsstring)
| Thrown (value : json).

Inductive role := system | user.

Record Message := { msg_role : role; msg_content : jsstring }.

End Js.
Import Js.

(* ===================================================================== *)
(** ** Context assembler ([rag.ts], context building) *)
(* ===================================================================== *)

Module Context.

Record RAGChunk := {
  content : jsstring;
  similarity : Q;
  documentId : Z;
  title : jsstring;
  url : option jsstring;
}.

Record RAGContext := {
  chunks : list RAGChunk;
  totalTokens : Z;
}.

(** [Math.ceil(text.length / 4)] *)
Definition estimateTokens (text : jsstring) : Z := (len text + 3) / 4.

(** The [for] loop of [buildRAGContext]; returning is the [break]. *)
Fixpoint select_chunks (maxTokens : Z) (totalTokens : Z)
    (selectedChunks : list RAGChunk) (rest : list RAGChunk) : RAGContext :=
  match rest with
  | [] => {| chunks := selectedChunks; totalTokens := totalTokens |}
  | chunk :: rest' =>
      let chunkTokens := estimateTokens (content chunk) in
      if totalTokens + chunkTokens <=? maxTokens then
        select_chunks maxTokens (totalTokens + chunkTokens)
          (selectedChunks ++ [chunk]) rest'
      else {| chunks := selectedChunks; totalTokens := totalTokens |}
  end.

Definition buildRAGContext (chunks : list RAGChunk) (maxTokens : Z) : RAGContext :=
  select_chunks maxTokens 0 [] chunks.

Definition nl : jsstring := [10%N].

Fixpoint join (sep : jsstring) (parts : list jsstring) : jsstring :=
  match parts with
  | [] => []
  | [p] => p
  | p :: rest => p ++ sep ++ join sep rest
  end.

(** One entry of the [map] of [formatContextForPrompt]; [index] is the
    0-based position. *)
Definition format_chunk (index : nat) (chunk : RAGChunk) : jsstring :=
  js "[Source " ++ digits (index + 1) ++ js ": " ++ title chunk
    ++ match url chunk with
       | Some ((_ :: _) as u) => js " (" ++ u ++ js ")"
       | _ => []
       end
    ++ js "]" ++ nl ++ content chunk.

Fixpoint mapi_from {A B} (f : nat -> A -> B) (i : nat) (l : list A) : list B :=
  match l with
  | [] => []
  | x :: l' => f i x :: mapi_from f (S i) l'
  end.

Definition formatContextForPrompt (context : RAGContext) : jsstring :=
  match chunks context with
  | [] => []
  | _ =>
      js "Context from knowledge base:" ++ nl ++ nl
        ++ join (nl ++ nl ++ js "---" ++ nl ++ nl)
                (mapi_from format_chunk 0 (chunks context))
  end.

End Context.

(* ===================================================================== *)
(** ** Tables ([drizzle/schema.ts]) and the world the pipeline runs in *)
(* ===================================================================== *)

Module Schema.

(** [resourceStatusEnum] *)
Inductive resource_status := pending | processing | completed | failed.

(** [planTypeEnum]; [other_plan] stands for any other value that reaches
    [getPlanLimits] through the untyped [project.plan]. *)
Inductive PlanType := free | pro | enterprise | other_plan (name : jsstring).

(** The columns of [documents] the pipeline reads or writes. *)
Record Document := {
  doc_id : Z;
  doc_projectId : Z;
  doc_title : jsstring;
  doc_content : jsstring;
  doc_metadata : json;
  doc_status : resource_status;
  doc_errorMessage : option jsstring;
}.

Record DocumentChunk := {
  dc_id : Z;
  dc_documentId : Z;
  dc_projectId : Z;
  dc_content : jsstring;
  dc_chunkIndex : Z;
  dc_tokenCount : Z;
}.

Record Embedding := {
  e_id : Z;
  e_chunkId : Z;
  e_documentId : Z;
  e_projectId : Z;
  e_vector : list json;
  e_model : jsstring;
}.

Record UsageTracking := {
  u_id : Z;
  u_userId : Z;
  u_projectId : Z;
  u_month : jsstring;
  messagesUsedMini : Z;
  messagesUsedPremium : Z;
  indexedPagesUsed : Z;
}.

(** The tables, with the next value of each [serial] key. *)
Record Tables := {
  documents : gmap Z Document;
  documentChunks : list DocumentChunk;
  embeddings : list Embedding;
  usageTracking : list UsageTracking;
  chunk_seq : Z;
  embedding_seq : Z;
  usage_seq : Z;
}.

(** The environment variables read when the modules load. *)
Record Config := {
  CHUNK_SIZE : Z;
  CHUNK_OVERLAP : Z;
  VECTOR_SIMILARITY_THRESHOLD : Q;
  VECTOR_SEARCH_TOP_K : Z;
  MAX_CONTEXT_TOKENS : Z;
  EMBEDDING_MODEL : jsstring;
  FREE_PLAN_CHATBOTS : Z;
  FREE_PLAN_MESSAGES_MINI : Z;
  FREE_PLAN_MESSAGES_PREMIUM : Z;
  FREE_PLAN_INDEXED_PAGES : Z;
}.

Definition default_config : Config := {|
  CHUNK_SIZE := 1000;
  CHUNK_OVERLAP := 200;
  VECTOR_SIMILARITY_THRESHOLD := 7 # 10;
  VECTOR_SEARCH_TOP_K := 5;
  MAX_CONTEXT_TOKENS := 2000;
  EMBEDDING_MODEL := js "text-embedding-3-small";
  FREE_PLAN_CHATBOTS := 3;
  FREE_PLAN_MESSAGES_MINI := 1000;
  FREE_PLAN_MESSAGES_PREMIUM := 100;
  FREE_PLAN_INDEXED_PAGES := 100;
|}.

End Schema.
Import Schema.

Module Runtime.

(** Everything outside the pipeline that its behaviour depends on.
    - [connected]: [getDb()] yields a handle ([DATABASE_URL] is set and the
      connection could be created);
    - [query_outcomes]: what the storage does with the successive queries
      sent to it: [None] lets the query run on [tables], [Some e] makes its
      promise reject with [e] (a lost connection, a violated constraint); a
      query sent after the list is exhausted runs;
    - [distance]: pgvector's cosine distance operator;
    - [provider]: what [invokeLLM] answers to a request;
    - [llm_log]: the requests passed to [invokeLLM] so far, oldest first;
    - [today]: full year and 0-based month of [new Date()]. *)
Record World := {
  config : Config;
  connected : bool;
  tables : Tables;
  query_outcomes : list (option exn);
  distance : list json -> list json -> Q;
  provider : list Message -> exn + json;
  llm_log : list (list Message);
  today : nat * nat;
}.

Definition with_tables (t : Tables) (w : World) : World :=
  {| config := config w; connected := connected w; tables := t;
     query_outcomes := query_outcomes w; distance := distance w;
     provider := provider w; llm_log := llm_log w; today := today w |}.

Definition with_outcomes (o : list (option exn)) (w : World) : World :=
  {| config := config w; connected := connected w; tables := tables w;
     query_outcomes := o; distance := distance w;
     provider := provider w; llm_log := llm_log w; today := today w |}.

Definition with_log (l : list (list Message)) (w : World) : World :=
  {| config := config w; connected := connected w; tables := tables w;
     query_outcomes := query_outcomes w; distance := distance w;
     provider := provider w; llm_log := l; today := today w |}.

(** The outcome of an [async] function: it resolves or it rejects. *)
Inductive Result (A : Type) :=
| Ok (value : A)
| Throw (e : exn).
Arguments Ok {A} value.
Arguments Throw {A} e.

Definition M (A : Type) : Type := World -> Result A * World.

Definition ret {A} (a : A) : M A := fun w => (Ok a, w).

Definition throw {A} (e : exn) : M A := fun w => (Throw e, w).

Definition bind {A B} (m : M A) (k : A -> M B) : M B :=
  fun w =>
    match m w with
    | (Ok a, w') => k a w'
    | (Throw e, w') => (Throw e, w')
    end.

(** [try { body } catch (error) { handler }] *)
Definition try_catch {A} (body : M A) (handler : exn -> M A) : M A :=
  fun w =>
    match body w with
    | (Ok a, w') => (Ok a, w')
    | (Throw e, w') => handler e w'
    end.

Definition ask {A} (f : World -> A) : M A := fun w => (Ok (f w), w).

(** [Promise.all(ps)] for promises started in list order: every one of them
    runs, and the result rejects as soon as one does.  When several reject,
    which rejection wins depends on timing; the first in list order is
    taken. *)
Fixpoint promise_all {A} (ps : list (M A)) : M (list A) :=
  fun w =>
    match ps with
    | [] => (Ok [], w)
    | p :: ps' =>
        let '(r, w1) := p w in
        let '(rs, w2) := promise_all ps' w1 in
        (match r, rs with
         | Ok a, Ok l => Ok (a :: l)
         | Throw e, _ => Throw e
         | Ok _, Throw e => Throw e
         end, w2)
    end.

(** [invokeLLM({ messages })] *)
Definition invokeLLM (messages : list Message) : M json :=
  fun w =>
    let w' := with_log (llm_log w ++ [messages]) w in
    match provider w messages with
    | inl e => (Throw e, w')
    | inr response => (Ok response, w')
    end.

(** [getDb()], as the test [if (!db)] of its callers sees it. *)
Definition getDb : M bool := ask connected.

(** One query awaited on the handle. *)
Definition query {A} (run : Tables -> Result A * Tables) : M A :=
  fun w =>
    let w1 := with_outcomes (tl (query_outcomes w)) w in
    match hd None (query_outcomes w) with
    | Some e => (Throw e, w1)
    | None => let '(r, t) := run (tables w) in (r, with_tables t w1)
    end.

End Runtime.
Import Runtime.

Declare Scope js_scope.
Delimit Scope js_scope with js.
Notation "x <- m ;; k" := (bind m (fun x => k))
  (at level 100, m at next level, right associativity) : js_scope.
Local Open Scope js_scope.

(* ===================================================================== *)
(** ** Storage functions ([server/db.ts]) *)
(* ===================================================================== *)

Module Db.

Definition not_available : exn := Error (js "Database not available").

(** [Partial<InsertDocument>] as [processDocument] uses it. *)
Record DocumentUpdates := {
  upd_status : option resource_status;
  upd_errorMessage : option jsstring;
}.

Definition apply_updates (u : DocumentUpdates) (d : Document) : Document :=
  {| doc_id := doc_id d;
     doc_projectId := doc_projectId d;
     doc_title := doc_title d;
     doc_content := doc_content d;
     doc_metadata := doc_metadata d;
     doc_status := match upd_status u with Some s => s | None => doc_status d end;
     doc_errorMessage :=
       match upd_errorMessage u with Some m => Some m | None => doc_errorMessage d end |}.

Definition set_documents (docs : gmap Z Document) (t : Tables) : Tables :=
  {| documents := docs; documentChunks := documentChunks t;
     embeddings := embeddings t; usageTracking := usageTracking t;
     chunk_seq := chunk_seq t; embedding_seq := embedding_seq t;
     usage_seq := usage_seq t |}.

(** [UPDATE documents SET ... WHERE id = $id RETURNING *], first row. *)
Definition updateDocument (id : Z) (updates : DocumentUpdates)
    : M (option Document) :=
  db <- getDb ;;
  if negb db then throw not_available
  else
    query (fun t =>
      (Ok (apply_updates updates <$> documents t !! id),
       set_documents (alter (apply_updates updates) id (documents t)) t)).

Record InsertDocumentChunk := {
  idc_documentId : Z;
  idc_projectId : Z;
  idc_content : jsstring;
  idc_chunkIndex : Z;
  idc_tokenCount : Z;
}.

Definition len_rows {A} (rows : list A) : Z := Z.of_nat (length rows).

(** The rows an [INSERT ... RETURNING] creates, keys drawn from [seq]. *)
Fixpoint insert_chunks (seq : Z) (chunks : list InsertDocumentChunk)
    : list DocumentChunk :=
  match chunks with
  | [] => []
  | c :: rest =>
      {| dc_id := seq; dc_documentId := idc_documentId c;
         dc_projectId := idc_projectId c; dc_content := idc_content c;
         dc_chunkIndex := idc_chunkIndex c; dc_tokenCount := idc_tokenCount c |}
      :: insert_chunks (seq + 1) rest
  end.

Definition createDocumentChunkBatch (chunks : list InsertDocumentChunk)
    : M (list DocumentChunk) :=
  db <- getDb ;;
  if negb db then throw not_available
  else
    query (fun t =>
      let rows := insert_chunks (chunk_seq t) chunks in
      (Ok rows,
       {| documents := documents t;
          documentChunks := documentChunks t ++ rows;
          embeddings := embeddings t; usageTracking := usageTracking t;
          chunk_seq := chunk_seq t + len_rows rows;
          embedding_seq := embedding_seq t; usage_seq := usage_seq t |})).

Record InsertEmbedding := {
  ie_chunkId : Z;
  ie_documentId : Z;
  ie_projectId : Z;
  ie_vector : list json;
  ie_model : jsstring;
}.

Fixpoint insert_embeddings (seq : Z) (l : list InsertEmbedding) : list Embedding :=
  match l with
  | [] => []
  | e :: rest =>
      {| e_id := seq; e_chunkId := ie_chunkId e; e_documentId := ie_documentId e;
         e_projectId := ie_projectId e; e_vector := ie_vector e;
         e_model := ie_model e |}
      :: insert_embeddings (seq + 1) rest
  end.

Definition createEmbeddingBatch (embeddingList : list InsertEmbedding)
    : M (list Embedding) :=
  db <- getDb ;;
  if negb db then throw not_available
  else
    query (fun t =>
      let rows := insert_embeddings (embedding_seq t) embeddingList in
      (Ok rows,
       {| documents := documents t;
          documentChunks := documentChunks t;
          embeddings := embeddings t ++ rows; usageTracking := usageTracking t;
          chunk_seq := chunk_seq t;
          embedding_seq := embedding_seq t + len_rows rows;
          usage_seq := usage_seq t |})).

(** *** [vectorSearch]: the raw SQL query, clause by clause *)

(** A row of the result. *)
Record SearchRow := {
  row_id : Z;
  row_chunkId : Z;
  row_documentId : Z;
  row_content : jsstring;
  row_title : jsstring;
  row_metadata : json;
  row_similarity : Q;
}.

Definition Qlt_bool (a b : Q) : bool := negb (Qle_bool b a).

(** [FROM embeddings e JOIN document_chunks dc ON e.chunk_id = dc.id
     JOIN documents d ON e.document_id = d.id] *)
Definition joined (t : Tables) : list (Embedding * DocumentChunk * Document) :=
  flat_map (fun e =>
    flat_map (fun dc =>
      match documents t !! e_documentId e with
      | Some d => [(e, dc, d)]
      | None => []
      end)
      (List.filter (fun dc => e_chunkId e =? dc_id dc) (documentChunks t)))
    (embeddings t).

(** [(1 - (e.vector <=> $vector))] *)
Definition similarity_of (dist : list json -> list json -> Q)
    (vector : list json) (e : Embedding) : Q :=
  1 - dist (e_vector e) vector.

(** [WHERE e.project_id = $projectId AND similarity > $threshold] *)
Definition where_clause (dist : list json -> list json -> Q)
    (projectId : Z) (vector : list json) (threshold : Q)
    (r : Embedding * DocumentChunk * Document) : bool :=
  let '(e, _, _) := r in
  (e_projectId e =? projectId) && Qlt_bool threshold (similarity_of dist vector e).

(** The [SELECT] list. *)
Definition select_row (dist : list json -> list json -> Q) (vector : list json)
    (r : Embedding * DocumentChunk * Document) : SearchRow :=
  let '(e, dc, d) := r in
  {| row_id := e_id e; row_chunkId := e_chunkId e;
     row_documentId := e_documentId e; row_content := dc_content dc;
     row_title := doc_title d; row_metadata := doc_metadata d;
     row_similarity := similarity_of dist vector e |}.

(** [ORDER BY similarity DESC], as a stable insertion sort; SQL leaves the
    order of rows of equal similarity open. *)
Fixpoint insert_desc (r : SearchRow) (sorted : list SearchRow) : list SearchRow :=
  match sorted with
  | [] => [r]
  | r' :: rest =>
      if Qlt_bool (row_similarity r) (row_similarity r')
      then r' :: insert_desc r rest
      else r :: sorted
  end.

Definition order_by_similarity_desc (rows : list SearchRow) : list SearchRow :=
  fold_right insert_desc [] rows.

(** The rows the query yields for a non-negative [LIMIT]. *)
Definition search_rows (dist : list json -> list json -> Q) (t : Tables)
    (projectId : Z) (vector : list json) (limit : Z) (threshold : Q)
    : list SearchRow :=
  firstn (Z.to_nat limit)
    (order_by_similarity_desc
      (List.map (select_row dist vector)
        (List.filter (where_clause dist projectId vector threshold) (joined t)))).

(** Without a handle the function returns no row; PostgreSQL rejects a
    negative [LIMIT]. *)
Definition vectorSearch (projectId : Z) (vector : list json) (limit : Z)
    (threshold : Q) : M (list SearchRow) :=
  db <- getDb ;;
  if negb db then ret []
  else
    dist <- ask distance ;;
    query (fun t =>
      if limit <? 0 then (Throw (Error (js "LIMIT must not be negative")), t)
      else (Ok (search_rows dist t projectId vector limit threshold), t)).

(** *** Usage tracking *)

Definition usage_matches (userId projectId : Z) (month : jsstring)
    (u : UsageTracking) : bool :=
  (u_userId u =? userId) && (u_projectId u =? projectId)
  && bool_decide (u_month u = month).

Definition getOrCreateUsageTracking (userId projectId : Z) (month : jsstring)
    : M UsageTracking :=
  db <- getDb ;;
  if negb db then throw not_available
  else
    existing <- query (fun t =>
      (Ok (firstn 1 (List.filter (usage_matches userId projectId month)
                       (usageTracking t))), t)) ;;
    match existing with
    | found :: _ => ret found
    | [] =>
        query (fun t =>
          let row :=
            {| u_id := usage_seq t; u_userId := userId; u_projectId := projectId;
               u_month := month; messagesUsedMini := 0;
               messagesUsedPremium := 0; indexedPagesUsed := 0 |} in
          (Ok row,
           {| documents := documents t; documentChunks := documentChunks t;
              embeddings := embeddings t;
              usageTracking := usageTracking t ++ [row];
              chunk_seq := chunk_seq t; embedding_seq := embedding_seq t;
              usage_seq := usage_seq t + 1 |}))
    end.

End Db.

(* ===================================================================== *)
(** ** The pipeline ([server/rag.ts]) *)
(* ===================================================================== *)

Module Rag.
Import Segmenter Sanitizer Context.

(** *** Embedding generation *)

Definition embedding_request (text : jsstring) : list Message :=
  [ {| msg_role := user; msg_content := text |} ].

Definition generateEmbedding (text : jsstring) : M (list json) :=
  if len (trim text) =? 0 then throw (Error (js "Text cannot be empty"))
  else
    try_catch
      (response <- invokeLLM (embedding_request text) ;;
       match response with
       | JArr items => ret items
       | _ => throw (Error (js "Invalid embedding response"))
       end)
      (fun error => throw error).

(** The [for] loop of [generateEmbeddingsBatch] over the chunks that remain
    ([batchSize] is 10).  A round takes at least one chunk, so [length chunks]
    rounds are enough. *)
Fixpoint embed_batches (rounds : nat) (remaining : list jsstring)
    (embeddings : list (list json)) : M (list (list json)) :=
  match remaining, rounds with
  | [], _ => ret embeddings
  | _, O => ret embeddings
  | _, S rounds' =>
      batchEmbeddings <-
        try_catch
          (promise_all (List.map generateEmbedding (firstn 10 remaining)))
          (fun error => throw error) ;;
      embed_batches rounds' (skipn 10 remaining) (embeddings ++ batchEmbeddings)
  end.

Definition generateEmbeddingsBatch (chunks : list jsstring) : M (list (list json)) :=
  embed_batches (length chunks) chunks [].

(** *** Vector search *)

Definition to_chunk (result : Db.SearchRow) : RAGChunk :=
  {| content := Db.row_content result;
     similarity := Db.row_similarity result;
     documentId := Db.row_documentId result;
     title := Db.row_title result;
     url := match opt_field (js "url") (Db.row_metadata result) with
            | JStr u => Some u
            | _ => None
            end |}.

Definition vectorSearch (projectId : Z) (query : jsstring) (limit : Z)
    (threshold : Q) : M (list RAGChunk) :=
  if len (trim query) =? 0 then ret []
  else
    try_catch
      (queryEmbedding <- generateEmbedding query ;;
       results <- Db.vectorSearch projectId queryEmbedding limit threshold ;;
       ret (List.map to_chunk results))
      (fun error => ret []).

(** *** Document processing *)

Definition chunk_rows (documentId projectId : Z) (chunks : list jsstring)
    : list Db.InsertDocumentChunk :=
  mapi_from (fun index chunk =>
    {| Db.idc_documentId := documentId; Db.idc_projectId := projectId;
       Db.idc_content := chunk; Db.idc_chunkIndex := Z.of_nat index;
       Db.idc_tokenCount := estimateTokens chunk |}) 0 chunks.

(** [embeddings.map((embedding, index) => ({ chunkId: createdChunks[index].id, ... }))],
    evaluated where both lists have the same length. *)
Definition embedding_rows (documentId projectId : Z) (model : jsstring)
    (embeddings : list (list json)) (createdChunks : list DocumentChunk)
    : list Db.InsertEmbedding :=
  List.map (fun '(embedding, created) =>
    {| Db.ie_chunkId := dc_id created; Db.ie_documentId := documentId;
       Db.ie_projectId := projectId; Db.ie_vector := embedding;
       Db.ie_model := model |}) (combine embeddings createdChunks).

Definition no_chunks : exn := Error (js "No chunks generated from document").
Definition count_mismatch : exn :=
  Error (js "Embedding count mismatch with chunk count").

(** The [try] block of [processDocument]. *)
Definition processDocument_try (documentId projectId : Z) (content : jsstring)
    : M unit :=
  _ <- Db.updateDocument documentId
         {| Db.upd_status := Some processing; Db.upd_errorMessage := None |} ;;
  cfg <- ask config ;;
  let chunks := intelligentChunk content (CHUNK_SIZE cfg) in
  if (length chunks =? 0)%nat then throw no_chunks
  else
    createdChunks <-
      Db.createDocumentChunkBatch (chunk_rows documentId projectId chunks) ;;
    embeddings <- generateEmbeddingsBatch chunks ;;
    if negb (length embeddings =? length createdChunks)%nat then throw count_mismatch
    else
      _ <- Db.createEmbeddingBatch
             (embedding_rows documentId projectId (EMBEDDING_MODEL cfg)
                embeddings createdChunks) ;;
      _ <- Db.updateDocument documentId
             {| Db.upd_status := Some completed; Db.upd_errorMessage := None |} ;;
      ret tt.

(** [error instanceof Error ? error.message : 'Unknown error'] *)
Definition error_message (error : exn) : jsstring :=
  match error with
  | Error message => message
  | Thrown _ => js "Unknown error"
  end.

(** The [catch] block of [processDocument]. *)
Definition processDocument_catch (documentId : Z) (error : exn) : M unit :=
  _ <- Db.updateDocument documentId
         {| Db.upd_status := Some failed;
            Db.upd_errorMessage := Some (error_message error) |} ;;
  throw error.

Definition processDocument (documentId projectId : Z) (content : jsstring)
    : M unit :=
  try_catch (processDocument_try documentId projectId content)
            (processDocument_catch documentId).

(** *** Response generation *)

Inductive ChatModel := mini | premium.

Definition systemPrompt : jsstring :=
  js "You are a helpful assistant. Use the provided context to answer questions accurately."
  ++ nl ++ js "If the context doesn't contain relevant information, say so clearly."
  ++ nl ++ js "Always cite your sources when using information from the context.".

Definition userMessage (query : jsstring) (context : RAGContext) : jsstring :=
  formatContextForPrompt context ++ nl ++ nl ++ js "User question: "
    ++ sanitizeUserInput query.

Definition answer_request (query : jsstring) (context : RAGContext)
    : list Message :=
  [ {| msg_role := system; msg_content := systemPrompt |};
    {| msg_role := user; msg_content := userMessage query context |} ].

(** [response?.choices?.[0]?.message?.content] *)
Definition response_content (response : json) : json :=
  opt_field (js "content")
    (opt_field (js "message") (opt_first (opt_field (js "choices") response))).

Definition unable : jsstring := js "Unable to generate response".

Definition generateRAGResponse (query : jsstring) (context : RAGContext)
    (model : ChatModel) : M jsstring :=
  try_catch
    (response <- invokeLLM (answer_request query context) ;;
     match response_content response with
     | JStr content => ret content
     | _ => ret unable
     end)
    (fun error => throw error).

End Rag.

(* ===================================================================== *)
(** ** Usage limits ([server/billing.ts]) *)
(* ===================================================================== *)

Module Billing.

Record PlanLimits := {
  chatbots : Z;
  messagesPerModelMini : Z;
  messagesPerModelPremium : Z;
  indexedPages : Z;
}.

Definition free_limits (cfg : Config) : PlanLimits :=
  {| chatbots := FREE_PLAN_CHATBOTS cfg;
     messagesPerModelMini := FREE_PLAN_MESSAGES_MINI cfg;
     messagesPerModelPremium := FREE_PLAN_MESSAGES_PREMIUM cfg;
     indexedPages := FREE_PLAN_INDEXED_PAGES cfg |}.

(** [limits[planType] || limits.free] *)
Definition getPlanLimits (cfg : Config) (planType : PlanType) : PlanLimits :=
  match planType with
  | pro =>
      {| chatbots := 50; messagesPerModelMini := 100000;
         messagesPerModelPremium := 10000; indexedPages := 10000 |}
  | enterprise =>
      {| chatbots := -1; messagesPerModelMini := -1;
         messagesPerModelPremium := -1; indexedPages := -1 |}
  | free | other_plan _ => free_limits cfg
  end.

(** [String(n).padStart(2, '0')] *)
Definition pad2 (n : nat) : jsstring :=
  let s := digits n in
  if (length s <? 2)%nat then js "0" ++ s else s.

(** [`${year}-${month}`] for [now = (getFullYear(), getMonth())] *)
Definition format_month (now : nat * nat) : jsstring :=
  let year := fst now in
  let month := (snd now + 1)%nat in
  digits year ++ js "-" ++ pad2 month.

Definition getCurrentMonth : M jsstring :=
  now <- ask today ;;
  ret (format_month now).

Record UsageCheck := {
  allowed : bool;
  reason : option jsstring;
}.

Definition checkUsageLimits (userId projectId : Z) (planType : PlanType)
    : M UsageCheck :=
  cfg <- ask config ;;
  let limits := getPlanLimits cfg planType in
  month <- getCurrentMonth ;;
  try_catch
    (usage <- Db.getOrCreateUsageTracking userId projectId month ;;
     if (0 <? messagesPerModelMini limits)
        && (messagesPerModelMini limits <=? messagesUsedMini usage)
     then ret {| allowed := false;
                 reason := Some (js "Mini model message limit exceeded") |}
     else if (0 <? messagesPerModelPremium limits)
        && (messagesPerModelPremium limits <=? messagesUsedPremium usage)
     then ret {| allowed := false;
                 reason := Some (js "Premium model message limit exceeded") |}
     else if (0 <? indexedPages limits)
        && (indexedPages limits <=? indexedPagesUsed usage)
     then ret {| allowed := false;
                 reason := Some (js "Indexed pages limit exceeded") |}
     else ret {| allowed := true; reason := None |})
    (fun error => ret {| allowed := true; reason := None |}).

End Billing.

(* ===================================================================== *)
(** ** The chat turn ([server/routers/chat.router.ts]) *)
(* ===================================================================== *)

Module Chat.
Import Context.

Record ChatRequest := {
  req_projectId : Z;
  req_message : jsstring;
  req_model : Rag.ChatModel;
}.

(** [sendMessage] from the line commented "Sanitize user input" to the
    generation of the response: what the turn does with the message once the
    project, the usage limits and the conversation have let it through. *)
Definition sendMessage_respond (input : ChatRequest) : M jsstring :=
  let sanitizedMessage := req_message input in
  cfg <- ask config ;;
  searchResults <-
    Rag.vectorSearch (req_projectId input) sanitizedMessage
      (VECTOR_SEARCH_TOP_K cfg) (VECTOR_SIMILARITY_THRESHOLD cfg) ;;
  let relevantChunks := searchResults in
  let context := buildRAGContext relevantChunks (MAX_CONTEXT_TOKENS cfg) in
  Rag.generateRAGResponse sanitizedMessage context (req_model input).

End Chat.

(* ===================================================================== *)
(** ** Notions used to state the properties *)
(* ===================================================================== *)

Module Notions.
Import Segmenter.

(** The text of the first chunking test of [rag.test.ts]. *)
Definition test_document : jsstring :=
  concat (repeat (js "This is a test document. ") 100).

(** [s.trim().length > 0] *)
Definition has_text (s : jsstring) : bool := 0 <? len (trim s).

(** The last step of [intelligentChunk]: the buffer is pushed when it holds
    something. *)
Definition flush (state : list jsstring * jsstring) : list jsstring :=
  match snd state with
  | [] => fst state
  | _ => fst state ++ [snd state]
  end.


(** The sum of the token estimates of a list of chunks. *)
Definition tokens_of (l : list Context.RAGChunk) : Z :=
  fold_right (fun c acc => Context.estimateTokens (Context.content c) + acc) 0 l.

(** [p] occurs somewhere in [s]. *)
Fixpoint occurs (p s : jsstring) : bool :=
  Sanitizer.starts_with p s
  || match s with
     | [] => false
     | _ :: s' => occurs p s'
     end.

(** The last character of [s] is white space. *)
Definition ends_with_space (s : jsstring) : bool :=
  match rev s with
  | c :: _ => is_white_space c
  | [] => false
  end.

(** *** Vector search *)

(** Descending similarity. *)
Definition by_similarity_desc (a b : Db.SearchRow) : Prop :=
  (Db.row_similarity b <= Db.row_similarity a)%Q.

Definition in_project (projectId : Z)
    (r : Embedding * DocumentChunk * Document) : bool :=
  e_projectId (fst (fst r)) =? projectId.

(** The rows of a project with their similarity to the query vector, before
    any threshold is applied. *)
Definition candidates (dist : list json -> list json -> Q) (t : Tables)
    (projectId : Z) (vector : list json) : list Db.SearchRow :=
  List.map (Db.select_row dist vector)
    (List.filter (in_project projectId) (Db.joined t)).

(** The rows strictly above a threshold, in their order. *)
Definition above (threshold : Q) (rows : list Db.SearchRow) : list Db.SearchRow :=
  List.filter (fun r => Db.Qlt_bool threshold (Db.row_similarity r)) rows.


(** *** Document processing *)

(** The storage will let the next write through: there is a handle, and the
    next query is not one it rejects. *)
Definition accepts_next_write (w : World) : Prop :=
  connected w = true /\ hd None (query_outcomes w) = None.




(** Running [m] from a world that satisfies [P] gives a result and a world
    related by [Q]. *)
Definition triple {A} (P : World -> Prop) (m : M A)
    (Q : Result A -> World -> Prop) : Prop :=
  forall w, P w -> Q (fst (m w)) (snd (m w)).

(** [m] keeps [I] true, whatever its result. *)
Definition stable {A} (I : World -> Prop) (m : M A) : Prop :=
  triple I m (fun _ w => I w).

(** *** Requests sent to the language model *)

(** Since the log was [before], the world has only seen requests that
    satisfy [allowed], under the configuration [cfg]. *)
Definition only_requests (cfg : Config) (before : list (list Message))
    (allowed : list Message -> Prop) (w : World) : Prop :=
  config w = cfg
  /\ exists requests,
       llm_log w = before ++ requests /\ List.Forall allowed requests.

(** [request] asks for the embedding of one of [texts]. *)
Definition embeds_one_of (texts : list jsstring) (request : list Message) : Prop :=
  exists text, In text texts /\ request = Rag.embedding_request text.

(** An invariant that does not look at the storage. *)
Definition storage_blind (I : World -> Prop) : Prop :=
  forall w t o, I w -> I (with_tables t (with_outcomes o w)).

(** *** Sample worlds *)

Definition empty_tables : Tables :=
  {| documents := ∅; documentChunks := []; embeddings := [];
     usageTracking := []; chunk_seq := 1; embedding_seq := 1; usage_seq := 1 |}.

(** A world with the default configuration, a reachable and empty database
    that accepts every query, and the given provider. *)
Definition world_with (answer : list Message -> exn + json) : World :=
  {| config := default_config; connected := true; tables := empty_tables;
     query_outcomes := []; distance := fun _ _ => 0%Q;
     provider := answer; llm_log := []; today := (2024, 0)%nat |}.

(** The same world without [DATABASE_URL]. *)
Definition world_without_database (answer : list Message -> exn + json) : World :=
  {| config := default_config; connected := false; tables := empty_tables;
     query_outcomes := []; distance := fun _ _ => 0%Q;
     provider := answer; llm_log := []; today := (2024, 0)%nat |}.

(** One document of project 1 waiting to be processed. *)
Definition guide : Document :=
  {| doc_id := 1; doc_projectId := 1; doc_title := js "Guide";
     doc_content := js "Hello world."; doc_metadata := JNull;
     doc_status := pending; doc_errorMessage := None |}.

Definition one_pending_document : Tables :=
  {| documents := {[ 1 := guide ]}; documentChunks := []; embeddings := [];
     usageTracking := []; chunk_seq := 1; embedding_seq := 1; usage_seq := 1 |}.

(** A provider that answers every request with the vector [[1]]. *)
Definition unit_embedding (request : list Message) : exn + json :=
  inr (JArr [JNum 1]).

(** A world holding that document, where every stored vector is at distance
    [d] of every query and the storage treats the successive queries as
    [outcomes] says. *)
Definition ingest_world (d : Q) (outcomes : list (option exn)) : World :=
  {| config := default_config; connected := true;
     tables := one_pending_document; query_outcomes := outcomes;
     distance := fun _ _ => d; provider := unit_embedding;
     llm_log := []; today := (2024, 0)%nat |}.

(** The world after the document has been processed there. *)
Definition ingested (d : Q) (outcomes : list (option exn)) : World :=
  snd (Rag.processDocument 1 1 (doc_content guide) (ingest_world d outcomes)).




Definition rate_limited (request : list Message) : exn + json :=
  inl (Error (js "Rate limit exceeded")).

(** A world where user 7 has used up the free mini messages of project 3 in
    January 2024. *)
Definition exhausted_world : World :=
  {| config := default_config; connected := true;
     tables :=
       {| documents := ∅; documentChunks := []; embeddings := [];
          usageTracking :=
            [ {| u_id := 1; u_userId := 7; u_projectId := 3;
                 u_month := js "2024-01"; messagesUsedMini := 1000;
                 messagesUsedPremium := 0; indexedPagesUsed := 0 |} ];
          chunk_seq := 1; embedding_seq := 1; usage_seq := 2 |};
     query_outcomes := []; distance := fun _ _ => 0%Q;
     provider := fun _ => inr JNull; llm_log := []; today := (2024, 0)%nat |}.

Definition sample_chunk (text : string) : Context.RAGChunk :=
  {| Context.content := js text; Context.similarity := 9 # 10;
     Context.documentId := 1; Context.title := js "Guide";
     Context.url := Some (js "https://example.com/guide") |}.

Definition empty_context : Context.RAGContext :=
  {| Context.chunks := []; Context.totalTokens := 0 |}.

End Notions.
Import Notions.


(* ===================================================================== *)
(** ** Further functions of the same modules *)
(* ===================================================================== *)

Module SegmenterNotions.
Import Segmenter.

(** A sentence boundary inside [s]: one of [.!?] immediately followed by
    white space. *)
Fixpoint has_boundary (s : jsstring) : bool :=
  match s with
  | a :: ((b :: _) as rest) =>
      (is_terminator a && is_white_space b) || has_boundary rest
  | _ => false
  end.

(** The piece at the head of a split does not start with white space. *)
Definition head_not_space (pieces : list jsstring) : Prop :=
  match pieces with
  | (c :: _) :: _ => is_white_space c = false
  | _ => True
  end.

(** [group.join(' ')] *)
Definition join_group (group : list jsstring) : jsstring :=
  Context.join [32%N] group.

(** What the first iteration of the loop of [chunkDocument] pushes. *)
Definition first_window (content : jsstring) (chunkSize : Z) : jsstring :=
  trim (substring content 0 (Z.min chunkSize (len content))).

End SegmenterNotions.
Import SegmenterNotions.

Module PipelineNotions.
Import Context.

(** [part] occurs in [whole] as a run of consecutive characters. *)
Definition contains (part whole : jsstring) : Prop :=
  exists before after, whole = before ++ part ++ after.

(** The chunks of [ranked] that fit one after the other in what is left of
    a budget of which [totalTokens] are spent. *)
Fixpoint within_budget (maxTokens totalTokens : Z) (ranked : list RAGChunk)
    : list RAGChunk :=
  match ranked with
  | [] => []
  | chunk :: rest =>
      if totalTokens + estimateTokens (content chunk) <=? maxTokens
      then chunk :: within_budget maxTokens
                      (totalTokens + estimateTokens (content chunk)) rest
      else []
  end.

End PipelineNotions.
Import PipelineNotions.

Module StorageNotions.

(** Since the tables were [t], rows have only been added to the chunk and
    embedding tables, and no document other than [documentId] has changed. *)
Definition only_appended (t : Tables) (documentId : Z) (w : World) : Prop :=
  (exists added, documentChunks (tables w) = documentChunks t ++ added)
  /\ (exists added, embeddings (tables w) = embeddings t ++ added)
  /\ (forall other, other <> documentId ->
        documents (tables w) !! other = documents t !! other)
  /\ usageTracking (tables w) = usageTracking t.

End StorageNotions.
Import StorageNotions.

(* ===================================================================== *)
(** ** More storage functions ([server/db.ts]) *)
(* ===================================================================== *)

Module DbMore.
Import Db.

(** [ORDER BY chunk_index ASC], as a stable insertion sort. *)
Fixpoint insert_by_index (c : DocumentChunk) (sorted : list DocumentChunk)
    : list DocumentChunk :=
  match sorted with
  | [] => [c]
  | c' :: rest =>
      if dc_chunkIndex c' <? dc_chunkIndex c
      then c' :: insert_by_index c rest
      else c :: sorted
  end.

Definition order_by_chunkIndex (rows : list DocumentChunk) : list DocumentChunk :=
  fold_right insert_by_index [] rows.

(** [SELECT * FROM document_chunks WHERE document_id = $documentId
     ORDER BY chunk_index ASC]; no row without a handle. *)
Definition getDocumentChunks (documentId : Z) : M (list DocumentChunk) :=
  db <- getDb ;;
  if negb db then ret []
  else
    query (fun t =>
      (Ok (order_by_chunkIndex
             (List.filter (fun c => dc_documentId c =? documentId)
                (documentChunks t))), t)).

End DbMore.

(* ===================================================================== *)
(** ** Crawl rate limit ([server/workers/crawlWorker.ts]) *)
(* ===================================================================== *)

Module Crawl.

(** An entry of [domainCrawlCounts]. *)
Record CrawlRecord := {
  count : Z;
  resetAt : Z;
}.

(** [canCrawlDomain(domain, maxPerMinute)] at the time [now] of
    [Date.now()], on the map [counts]: the answer and the map afterwards. *)
Definition canCrawlDomain (now : Z) (domain : jsstring) (maxPerMinute : Z)
    (counts : gmap jsstring CrawlRecord) : bool * gmap jsstring CrawlRecord :=
  let fresh := {| count := 1; resetAt := now + 60000 |} in
  match counts !! domain with
  | None => (true, <[domain := fresh]> counts)
  | Some record =>
      if resetAt record <? now then (true, <[domain := fresh]> counts)
      else if count record <? maxPerMinute then
        (true, <[domain := {| count := count record + 1;
                              resetAt := resetAt record |}]> counts)
      else (false, counts)
  end.

(** Successive calls for one domain at the given times. *)
Fixpoint crawl_calls (times : list Z) (domain : jsstring) (maxPerMinute : Z)
    (counts : gmap jsstring CrawlRecord)
    : list bool * gmap jsstring CrawlRecord :=
  match times with
  | [] => ([], counts)
  | now :: later =>
      let '(answer, counts1) := canCrawlDomain now domain maxPerMinute counts in
      let '(answers, counts2) := crawl_calls later domain maxPerMinute counts1 in
      (answer :: answers, counts2)
  end.

End Crawl.

Module MoreNotions.


End MoreNotions.
Import MoreNotions.
(* ===================================================================== *)
(** * Properties *)
(* ===================================================================== *)

(** ** The model on the inputs of the repository's tests *)

Module Examples.
Import Segmenter Sanitizer Context.

Example split_three_sentences :
  splitBySentences (js "Sentence one. Sentence two. Sentence three.")
  = [js "Sentence one."; js "Sentence two."; js "Sentence three."].
Proof. reflexivity. Qed.

Example split_trailing_separator :
  split_sentences_regex (js "a b.  c? ") = [js "a b."; js "c?"; []].
Proof. reflexivity. Qed.

Example intelligentChunk_three_sentences :
  intelligentChunk (js "Sentence one. Sentence two. Sentence three.") 30
  = [js "Sentence one. Sentence two."; js "Sentence three."].
Proof. reflexivity. Qed.

Example intelligentChunk_long_sentence_kept_whole :
  intelligentChunk (js "Sentence one. Sentence two.") 5
  = [js "Sentence one."; js "Sentence two."].
Proof. reflexivity. Qed.

Example chunkDocument_very_small_size :
  chunkDocument 10 (js "This is a test.") 5 200 = Some [js "This"].
Proof. reflexivity. Qed.

Example chunkDocument_without_overlap :
  chunkDocument 10 (js "abcdefghij") 4 0 = Some [js "abcd"; js "efgh"; js "ij"].
Proof. reflexivity. Qed.

(** An overlap larger than the window ends the loop after the first window:
    there is no fall-back to windows that do not overlap. *)
Example chunkDocument_overlap_above_size :
  chunkDocument 10 (js "abcdefghij") 5 10 = Some [js "abcde"].
Proof. reflexivity. Qed.

Example sanitizeUserInput_test_query :
  sanitizeUserInput (js "What is ```code```? And ${variable}?")
  = js "What is ? And ?".
Proof. reflexivity. Qed.

Example sanitizeUserInput_normal_query :
  sanitizeUserInput (js "What is the meaning of life?")
  = js "What is the meaning of life?".
Proof. reflexivity. Qed.

Example buildRAGContext_stops_at_budget :
  buildRAGContext [sample_chunk "12345678"; sample_chunk "123456789"; sample_chunk "1"] 4
  = {| chunks := [sample_chunk "12345678"]; totalTokens := 2 |}.
Proof. reflexivity. Qed.

Example formatContextForPrompt_one_chunk :
  formatContextForPrompt {| chunks := [sample_chunk "Body"]; totalTokens := 1 |}
  = js "Context from knowledge base:" ++ nl ++ nl
    ++ js "[Source 1: Guide (https://example.com/guide)]" ++ nl ++ js "Body".
Proof. reflexivity. Qed.

Example response_content_well_formed :
  Rag.response_content
    (JObj [(js "choices",
            JArr [JObj [(js "message", JObj [(js "content", JStr (js "Hi"))])]])])
  = JStr (js "Hi").
Proof. reflexivity. Qed.

Example checkUsageLimits_limit_reached :
  fst (Billing.checkUsageLimits 7 3 free exhausted_world)
  = Ok {| Billing.allowed := false;
          Billing.reason := Some (js "Mini model message limit exceeded") |}.
Proof. vm_compute. reflexivity. Qed.

Example checkUsageLimits_enterprise_unlimited :
  fst (Billing.checkUsageLimits 7 3 enterprise exhausted_world)
  = Ok {| Billing.allowed := true; Billing.reason := None |}.
Proof. vm_compute. reflexivity. Qed.

End Examples.

(** ** Strings *)

Arguments is_white_space : simpl never.
Arguments Segmenter.is_terminator : simpl never.

Module JsStringFacts.

Lemma len_nonneg (s : jsstring) : 0 <= len s.
Proof. unfold len. lia. Qed.

Lemma len_app (a b : jsstring) : len (a ++ b) = len a + len b.
Proof. unfold len. rewrite length_app. lia. Qed.

Lemma len_zero_iff (s : jsstring) : len s = 0 <-> s = [].
Proof.
  unfold len. destruct s; simpl; split; intros H; try reflexivity; discriminate.
Qed.

Lemma non_space_app (a b : jsstring) :
  non_space (a ++ b) = non_space a ++ non_space b.
Proof. unfold non_space. apply List.filter_app. Qed.

Lemma non_space_cons (c : code_unit) (s : jsstring) :
  non_space (c :: s) = if is_white_space c then non_space s else c :: non_space s.
Proof. unfold non_space. simpl. destruct (is_white_space c); reflexivity. Qed.

Lemma non_space_trimStart (s : jsstring) : non_space (trimStart s) = non_space s.
Proof.
  induction s as [|c s IH]; [reflexivity|].
  rewrite non_space_cons. simpl trimStart.
  destruct (is_white_space c) eqn:E; [exact IH|].
  rewrite non_space_cons, E. reflexivity.
Qed.

Lemma non_space_rev (s : jsstring) : non_space (rev s) = rev (non_space s).
Proof.
  induction s as [|c s IH]; [reflexivity|].
  simpl rev. rewrite non_space_app, IH, !non_space_cons.
  destruct (is_white_space c); simpl; [apply app_nil_r | reflexivity].
Qed.

Lemma non_space_trim (s : jsstring) : non_space (trim s) = non_space s.
Proof.
  unfold trim, trimEnd.
  rewrite non_space_rev, non_space_trimStart, non_space_rev, rev_involutive.
  apply non_space_trimStart.
Qed.

(** A string trims to nothing exactly when it holds white space only. *)
Lemma trimStart_nil_iff (s : jsstring) : trimStart s = [] <-> non_space s = [].
Proof.
  induction s as [|c s IH]; [simpl; tauto|].
  rewrite non_space_cons. simpl trimStart.
  destruct (is_white_space c); [exact IH|].
  split; discriminate.
Qed.

Lemma trim_nil_iff (s : jsstring) : trim s = [] <-> non_space s = [].
Proof.
  unfold trim, trimEnd. split; intros H.
  - apply (f_equal (@rev code_unit)) in H. rewrite rev_involutive in H. simpl in H.
    apply trimStart_nil_iff in H. rewrite non_space_rev in H.
    apply (f_equal (@rev code_unit)) in H. rewrite rev_involutive in H. simpl in H.
    rewrite non_space_trimStart in H. exact H.
  - assert (E : trimStart (rev (trimStart s)) = []).
    { apply trimStart_nil_iff. rewrite non_space_rev, non_space_trimStart, H.
      reflexivity. }
    rewrite E. reflexivity.
Qed.

End JsStringFacts.

(** ** Fixed-width chunking *)

Module ChunkDocumentFacts.
Import Segmenter JsStringFacts.

(** Once the window has a positive overlap that fits both the window and the
    text, [start] stays inside the text for ever: the loop test never fails
    and the [break] is never taken. *)
Lemma chunk_loop_never_returns (content : jsstring) (chunkSize overlap : Z) :
  0 < overlap <= chunkSize -> overlap <= len content ->
  forall fuel start chunks,
    0 <= start < len content ->
    chunk_loop fuel content chunkSize overlap start chunks = None.
Proof.
  intros Hov Hlen. induction fuel as [|fuel IH]; intros start chunks Hs.
  - reflexivity.
  - simpl.
    destruct (Z.ltb_spec start (len content)) as [_|Hge]; [|lia].
    destruct (Z.ltb_spec (Z.min (start + chunkSize) (len content) - overlap) 0)
      as [Hneg|Hpos]; [lia|].
    apply IH. lia.
Qed.

Lemma chunkDocument_never_returns (content : jsstring) (chunkSize overlap : Z) :
  0 < overlap <= chunkSize -> overlap <= len content ->
  forall fuel, chunkDocument fuel content chunkSize overlap = None.
Proof.
  intros Hov Hlen fuel. unfold chunkDocument.
  destruct content as [|c content'] eqn:E.
  - unfold len in Hlen. simpl in Hlen. lia.
  - rewrite chunk_loop_never_returns; try assumption; [reflexivity|].
    split; [lia|]. lia.
Qed.

(** Without overlap the window advances by [chunkSize] and the loop returns. *)
Lemma chunk_loop_returns_no_overlap (content : jsstring) (chunkSize : Z) :
  0 < chunkSize ->
  forall fuel start chunks,
    0 <= start -> (Z.to_nat (len content - start) < fuel)%nat ->
    exists result, chunk_loop fuel content chunkSize 0 start chunks = Some result.
Proof.
  intros Hsize. induction fuel as [|fuel IH]; intros start chunks Hs Hfuel; [lia|].
  simpl.
  destruct (Z.ltb_spec start (len content)) as [Hlt|Hge]; [|eauto].
  destruct (Z.ltb_spec (Z.min (start + chunkSize) (len content) - 0) 0)
    as [Hneg|Hpos]; [eauto|].
  apply IH; lia.
Qed.

(** An overlap equal to the window keeps [start] at 0. *)
Lemma chunkDocument_overlap_equal_size (fuel : nat) :
  chunkDocument fuel (js "abcdefghij") 5 5 = None.
Proof. apply chunkDocument_never_returns; [lia | vm_compute; discriminate]. Qed.

End ChunkDocumentFacts.


(** C2 (not met by the code).  [chunkDocument] is to terminate for every
    text, every positive size and every overlap.  On the input of
    the repository's own first chunking test, the text
    ['This is a test document. '.repeat(100)] with [chunkSize = 500] and the
    default overlap of 200, the loop never returns: whatever the number of
    loop tests allowed, no result is produced ([start] reaches 2300 and stays
    there, pushing the same chunk again and again). *)
Theorem chunkDocument_test_document_never_returns :
  forall fuel : nat,
    Segmenter.chunkDocument fuel test_document 500 (CHUNK_OVERLAP default_config)
    = None.
Proof.
  intros fuel.
  apply ChunkDocumentFacts.chunkDocument_never_returns.
  - simpl. lia.
  - vm_compute. discriminate.
Qed.

(** ** Sentence chunking *)

Module IntelligentChunkFacts.
Import Segmenter JsStringFacts.





Lemma has_text_true (s : jsstring) : has_text s = true -> s <> [].
Proof. intros H ->. discriminate. Qed.



Lemma splitBySentences_nonempty (content s : jsstring) :
  In s (splitBySentences content) -> s <> [].
Proof.
  unfold splitBySentences. intros H. apply List.filter_In in H as [_ H].
  apply has_text_true. exact H.
Qed.


Lemma intelligentChunk_flush (content : jsstring) (target : Z) :
  intelligentChunk content target
  = flush (chunk_sentences target [] [] (splitBySentences content)).
Proof.
  unfold intelligentChunk, flush.
  destruct (chunk_sentences target [] [] (splitBySentences content)) as [cs cur].
  reflexivity.
Qed.


Lemma concat_snoc (l : list jsstring) (x : jsstring) :
  concat (l ++ [x]) = concat l ++ x.
Proof. rewrite concat_app. simpl. now rewrite app_nil_r. Qed.








End IntelligentChunkFacts.


(** ** Context assembly *)

Module ContextFacts.
Import Context JsStringFacts.

Lemma tokens_of_app (a b : list RAGChunk) :
  tokens_of (a ++ b) = tokens_of a + tokens_of b.
Proof. induction a as [|c a IH]; simpl; [reflexivity | rewrite IH; lia]. Qed.

(** [estimateTokens] is the ceiling of a quarter of the length. *)
Lemma estimateTokens_ceil (text : jsstring) :
  len text <= 4 * estimateTokens text < len text + 4.
Proof.
  unfold estimateTokens.
  pose proof (Z.div_mod (len text + 3) 4 ltac:(lia)) as Hdm.
  pose proof (Z.mod_pos_bound (len text + 3) 4 ltac:(lia)) as Hb.
  lia.
Qed.

Lemma estimateTokens_nonneg (text : jsstring) : 0 <= estimateTokens text.
Proof. pose proof (estimateTokens_ceil text). pose proof (len_nonneg text). lia. Qed.


End ContextFacts.



(** ** Response generation *)

Module ResponseFacts.
Import Rag.

(** What [generateRAGResponse] returns once the provider has answered. *)
Lemma generateRAGResponse_answered (query : jsstring)
    (context : Context.RAGContext) (model : ChatModel) (w : World)
    (response : json) :
  provider w (answer_request query context) = inr response ->
  generateRAGResponse query context model w
  = (Ok match response_content response with
        | JStr content => content
        | _ => unable
        end,
     with_log (llm_log w ++ [answer_request query context]) w).
Proof.
  intros Hp. unfold generateRAGResponse, try_catch, bind, invokeLLM.
  rewrite Hp. destruct (response_content response); reflexivity.
Qed.

(** A provider failure is passed on unchanged. *)
Lemma generateRAGResponse_failed (query : jsstring)
    (context : Context.RAGContext) (model : ChatModel) (w : World) (e : exn) :
  provider w (answer_request query context) = inl e ->
  fst (generateRAGResponse query context model w) = Throw e.
Proof.
  intros Hp. unfold generateRAGResponse, try_catch, bind, invokeLLM.
  rewrite Hp. reflexivity.
Qed.

End ResponseFacts.

(** C9.  When the call to the language model succeeds and its response holds
    no string at [choices[0].message.content], [generateRAGResponse] resolves
    with the literal ['Unable to generate response'] instead of rejecting. *)
Theorem generateRAGResponse_malformed_response :
  forall (query : jsstring) (context : Context.RAGContext)
         (model : Rag.ChatModel) (w : World) (response : json),
    provider w (Rag.answer_request query context) = inr response ->
    (forall content, Rag.response_content response <> JStr content) ->
    fst (Rag.generateRAGResponse query context model w)
    = Ok (js "Unable to generate response").
Proof.
  intros query context model w response Hp Hno.
  rewrite (ResponseFacts.generateRAGResponse_answered _ _ _ _ _ Hp). simpl.
  destruct (Rag.response_content response) eqn:E; try reflexivity.
  exfalso. now apply (Hno s).
Qed.

Lemma generateRAGResponse_malformed_response_witness :
  fst (Rag.generateRAGResponse (js "What is AI?") empty_context Rag.mini
         (world_with (fun _ => inr (JObj [(js "choices", JArr [])]))))
  = Ok (js "Unable to generate response").
Proof.
  apply (generateRAGResponse_malformed_response _ _ _ _
           (JObj [(js "choices", JArr [])])).
  - reflexivity.
  - intros content. discriminate.
Defined.

(** ** Usage limits *)

(** C10.  When reading or creating the usage record of the month throws,
    [checkUsageLimits] resolves with [{ allowed: true }], whatever the user,
    the project and the plan. *)
Theorem checkUsageLimits_fails_open :
  forall (userId projectId : Z) (planType : PlanType) (w : World) (e : exn),
    fst (Db.getOrCreateUsageTracking userId projectId
           (Billing.format_month (today w)) w) = Throw e ->
    fst (Billing.checkUsageLimits userId projectId planType w)
    = Ok {| Billing.allowed := true; Billing.reason := None |}.
Proof.
  intros userId projectId planType w e H.
  unfold Billing.checkUsageLimits, Billing.getCurrentMonth, bind, ask, ret, try_catch.
  simpl.
  destruct (Db.getOrCreateUsageTracking userId projectId
              (Billing.format_month (today w)) w) as [[usage|e'] w'] eqn:E.
  - discriminate H.
  - reflexivity.
Qed.

Lemma checkUsageLimits_fails_open_witness :
  fst (Billing.checkUsageLimits 7 3 free (world_without_database (fun _ => inr JNull)))
  = Ok {| Billing.allowed := true; Billing.reason := None |}.
Proof.
  apply (checkUsageLimits_fails_open 7 3 free _ Db.not_available).
  reflexivity.
Defined.

(** ** Sanitizer *)

Module SanitizerFacts.
Import Sanitizer JsStringFacts.

(** [s.substring(0, n)] is the prefix of length [n]. *)
Lemma substring_prefix (s : jsstring) (n : Z) :
  0 <= n -> substring s 0 n = firstn (Z.to_nat n) s.
Proof.
  intros Hn. unfold substring. pose proof (len_nonneg s) as Hs.
  replace (Z.min (Z.max 0 0) (len s)) with 0 by lia.
  replace (Z.min 0 (Z.min (Z.max n 0) (len s))) with 0 by lia.
  replace (Z.max 0 (Z.min (Z.max n 0) (len s)) - 0) with (Z.min n (len s)) by lia.
  change (Z.to_nat 0) with 0%nat. rewrite skipn_O.
  destruct (Z.le_gt_cases n (len s)) as [Hle|Hgt].
  - now replace (Z.min n (len s)) with n by lia.
  - replace (Z.min n (len s)) with (len s) by lia.
    unfold len in *. rewrite Nat2Z.id, firstn_all.
    symmetry. apply firstn_all2. lia.
Qed.



(** *** The scan of [replace_all] has steps enough *)

Lemma starts_with_length (p s : jsstring) :
  starts_with p s = true -> (length p <= length s)%nat.
Proof.
  revert s. induction p as [|a p IH]; intros [|b s]; simpl; try lia; try discriminate.
  intros H. apply andb_true_iff in H as [_ H]. apply IH in H. lia.
Qed.

Lemma find_after_length (closer s rest : jsstring) :
  find_after closer s = Some rest -> (length rest <= length s)%nat.
Proof.
  induction s as [|c s IH]; simpl find_after.
  - destruct (starts_with closer []); [|discriminate].
    intros H. inversion H. rewrite length_skipn. simpl. lia.
  - destruct (starts_with closer (c :: s)).
    + intros H. inversion H. rewrite length_skipn. lia.
    + intros H. apply IH in H. simpl. lia.
Qed.

(** More steps than the text has characters change nothing. *)
Lemma remove_matches_fuel (opener closer : jsstring) :
  opener <> [] ->
  forall n s m,
    (length s <= n)%nat -> (length s <= m)%nat ->
    remove_matches n opener closer s = remove_matches m opener closer s.
Proof.
  intros Hopener. induction n as [|n IH]; intros s m Hn Hm.
  - destruct s; [|simpl in Hn; lia]. destruct m; reflexivity.
  - destruct s as [|c s]; [destruct m; reflexivity|].
    destruct m as [|m]; [simpl in Hm; lia|].
    simpl remove_matches. simpl in Hn, Hm.
    destruct (starts_with opener (c :: s)) eqn:Hstart.
    + destruct (find_after closer (skipn (length opener) (c :: s))) as [rest|] eqn:Hfind.
      * apply find_after_length in Hfind. rewrite length_skipn in Hfind.
        assert (1 <= length opener)%nat by (destruct opener; [congruence | simpl; lia]).
        simpl in Hfind. apply IH; lia.
      * f_equal. apply IH; lia.
    + f_equal. apply IH; lia.
Qed.

(** *** Leading white space *)




Lemma trimStart_fixed (c : code_unit) (t : jsstring) :
  is_white_space c = false -> trimStart (c :: t) = c :: t.
Proof. intros Hc. simpl. now rewrite Hc. Qed.


Lemma trimEnd_fixed (s : jsstring) :
  ends_with_space s = false -> trimEnd s = s.
Proof.
  unfold ends_with_space, trimEnd. intros H.
  destruct (rev s) as [|c r] eqn:E.
  - simpl. apply (f_equal (@rev code_unit)) in E.
    rewrite rev_involutive in E. now rewrite E.
  - rewrite trimStart_fixed by exact H. rewrite <- E. apply rev_involutive.
Qed.

(** *** Texts without opening marker *)

Lemma occurs_false_head (p : jsstring) (c : code_unit) (s : jsstring) :
  occurs p (c :: s) = false -> starts_with p (c :: s) = false /\ occurs p s = false.
Proof. simpl occurs. intros H. now apply orb_false_iff in H. Qed.

Lemma remove_matches_absent (opener closer : jsstring) (fuel : nat) :
  forall s, occurs opener s = false -> remove_matches fuel opener closer s = s.
Proof.
  induction fuel as [|fuel IH]; intros s H; [reflexivity|].
  destruct s as [|c s]; [reflexivity|].
  apply occurs_false_head in H as [Hhere Hlater].
  simpl remove_matches. rewrite Hhere. f_equal. now apply IH.
Qed.

Lemma replace_all_absent (opener closer s : jsstring) :
  occurs opener s = false -> replace_all opener closer s = s.
Proof. apply remove_matches_absent. Qed.

(** A text without marker, without white space at either end and of at most
    5000 characters is left as it is. *)
Lemma sanitizeUserInput_clean (y : jsstring) :
  occurs fence y = false ->
  occurs open_braces y = false ->
  occurs open_interp y = false ->
  trimStart y = y ->
  ends_with_space y = false ->
  len y <= 5000 ->
  sanitizeUserInput y = y.
Proof.
  intros Hf Hb Hi Hstart Hend Hlen.
  unfold sanitizeUserInput. destruct y as [|c y]; [reflexivity|].
  unfold strip_regions.
  rewrite (replace_all_absent fence fence _ Hf).
  rewrite (replace_all_absent open_braces close_braces _ Hb).
  rewrite (replace_all_absent open_interp close_interp _ Hi).
  unfold trim. rewrite Hstart, (trimEnd_fixed _ Hend).
  destruct (Z.ltb_spec 5000 (len (c :: y))); [lia | reflexivity].
Qed.

End SanitizerFacts.




(** ** Vector search *)

Module SearchFacts.
Import Db.

Lemma Qlt_bool_true (a b : Q) : Qlt_bool a b = true -> (a < b)%Q.
Proof.
  unfold Qlt_bool. intros H. apply negb_true_iff in H.
  apply Qnot_le_lt. intros Hle. apply Qle_bool_iff in Hle. congruence.
Qed.


(** *** The join *)


Lemma In_firstn {A} (n : nat) (l : list A) (x : A) :
  In x (firstn n l) -> In x l.
Proof.
  intros H. rewrite <- (firstn_skipn n l). apply in_or_app. now left.
Qed.

(** *** The ordering *)

Lemma insert_desc_perm (r : SearchRow) (l : list SearchRow) :
  Permutation (insert_desc r l) (r :: l).
Proof.
  induction l as [|r' l IH]; simpl; [reflexivity|].
  destruct (Qlt_bool (row_similarity r) (row_similarity r')); [|reflexivity].
  rewrite IH. apply perm_swap.
Qed.

Lemma order_by_perm (l : list SearchRow) :
  Permutation (order_by_similarity_desc l) l.
Proof.
  induction l as [|r l IH]; simpl; [reflexivity|].
  rewrite insert_desc_perm. now constructor.
Qed.






Lemma firstn_strongly_sorted (n : nat) (l : list SearchRow) :
  StronglySorted by_similarity_desc l ->
  StronglySorted by_similarity_desc (firstn n l).
Proof.
  intros Hs. revert n. induction Hs as [|a l Hs IH Hall]; intros [|n]; simpl;
    try constructor.
  - apply IH.
  - apply List.Forall_forall. intros x Hx.
    apply (proj1 (List.Forall_forall _ _) Hall). eapply In_firstn; eauto.
Qed.

(** *** The two conditions of the [WHERE] clause *)

Lemma where_clause_split (dist : list json -> list json -> Q) (projectId : Z)
    (vector : list json) (threshold : Q) (l : list (Embedding * DocumentChunk * Document)) :
  List.map (select_row dist vector)
    (List.filter (where_clause dist projectId vector threshold) l)
  = above threshold
      (List.map (select_row dist vector) (List.filter (in_project projectId) l)).
Proof.
  unfold above. induction l as [|[[e dc] d] l IH]; [reflexivity|].
  simpl. unfold in_project at 1. simpl.
  destruct (e_projectId e =? projectId); simpl; [|exact IH].
  destruct (Qlt_bool threshold (similarity_of dist vector e)); simpl;
    [f_equal|]; exact IH.
Qed.

Lemma search_rows_ranked (dist : list json -> list json -> Q) (t : Tables)
    (projectId : Z) (vector : list json) (limit : Z) (threshold : Q) :
  search_rows dist t projectId vector limit threshold
  = firstn (Z.to_nat limit)
      (order_by_similarity_desc
         (above threshold (candidates dist t projectId vector))).
Proof. unfold search_rows, candidates. now rewrite where_clause_split. Qed.

(** *** What a call returns *)

Lemma vectorSearch_result (projectId : Z) (vector : list json) (limit : Z)
    (threshold : Q) (w w' : World) (rows : list SearchRow) :
  vectorSearch projectId vector limit threshold w = (Ok rows, w') ->
  rows = []
  \/ rows = search_rows (distance w) (tables w) projectId vector limit threshold.
Proof.
  unfold vectorSearch, bind, getDb, ask, ret, query.
  destruct (connected w); simpl.
  - destruct (query_outcomes w) as [|[e|] later]; simpl;
      destruct (limit <? 0); intros H; inversion H; auto.
  - intros H. inversion H. auto.
Qed.

Lemma vectorSearch_tables (projectId : Z) (vector : list json) (limit : Z)
    (threshold : Q) (w : World) :
  tables (snd (vectorSearch projectId vector limit threshold w)) = tables w.
Proof.
  unfold vectorSearch, bind, getDb, ask, ret, query.
  destruct (connected w); simpl; [|reflexivity].
  destruct (query_outcomes w) as [|[e|] later]; simpl;
    destruct (limit <? 0); reflexivity.
Qed.

End SearchFacts.







(** ** Reasoning about effectful code *)

Module MonadFacts.

Lemma triple_weaken {A} (m : M A) (P P' : World -> Prop)
    (Q Q' : Result A -> World -> Prop) :
  triple P' m Q' -> (forall w, P w -> P' w) ->
  (forall r w, Q' r w -> Q r w) -> triple P m Q.
Proof. intros H HP HQ w Hw. apply HQ, H, HP, Hw. Qed.

Lemma triple_ret {A} (a : A) (P : World -> Prop) (Q : Result A -> World -> Prop) :
  (forall w, P w -> Q (Ok a) w) -> triple P (ret a) Q.
Proof. intros H w Hw. now apply H. Qed.

Lemma triple_throw {A} (e : exn) (P : World -> Prop)
    (Q : Result A -> World -> Prop) :
  (forall w, P w -> Q (Throw e) w) -> triple P (throw e) Q.
Proof. intros H w Hw. now apply H. Qed.

Lemma triple_ask {A} (f : World -> A) (P : World -> Prop)
    (Q : Result A -> World -> Prop) :
  (forall w, P w -> Q (Ok (f w)) w) -> triple P (ask f) Q.
Proof. intros H w Hw. now apply H. Qed.

Lemma triple_bind {A B} (m : M A) (k : A -> M B) (P : World -> Prop)
    (Q : Result A -> World -> Prop) (R : Result B -> World -> Prop) :
  triple P m Q ->
  (forall e w, Q (Throw e) w -> R (Throw e) w) ->
  (forall a, triple (Q (Ok a)) (k a) R) ->
  triple P (bind m k) R.
Proof.
  intros Hm Hthrow Hk w Hw. specialize (Hm w Hw). unfold bind.
  destruct (m w) as [[a|e] w1]; simpl in *.
  - now apply Hk.
  - now apply Hthrow.
Qed.

Lemma triple_try_catch {A} (body : M A) (handler : exn -> M A)
    (P : World -> Prop) (Q R : Result A -> World -> Prop) :
  triple P body Q ->
  (forall a w, Q (Ok a) w -> R (Ok a) w) ->
  (forall e, triple (Q (Throw e)) (handler e) R) ->
  triple P (try_catch body handler) R.
Proof.
  intros Hb Hok Hh w Hw. specialize (Hb w Hw). unfold try_catch.
  destruct (body w) as [[a|e] w1]; simpl in *.
  - now apply Hok.
  - now apply Hh.
Qed.

Lemma triple_query {A} (run : Tables -> Result A * Tables)
    (P : World -> Prop) (Q : Result A -> World -> Prop) :
  (forall w, P w ->
     let w1 := with_outcomes (tl (query_outcomes w)) w in
     match hd None (query_outcomes w) with
     | Some e => Q (Throw e) w1
     | None => Q (fst (run (tables w))) (with_tables (snd (run (tables w))) w1)
     end) ->
  triple P (query run) Q.
Proof.
  intros H w Hw. specialize (H w Hw). unfold query. simpl in *.
  destruct (hd None (query_outcomes w)); [exact H|].
  destruct (run (tables w)). exact H.
Qed.

Lemma triple_invokeLLM (messages : list Message) (P : World -> Prop)
    (Q : Result json -> World -> Prop) :
  (forall w, P w ->
     let w1 := with_log (llm_log w ++ [messages]) w in
     match provider w messages with
     | inl e => Q (Throw e) w1
     | inr response => Q (Ok response) w1
     end) ->
  triple P (invokeLLM messages) Q.
Proof.
  intros H w Hw. specialize (H w Hw). unfold invokeLLM. simpl in *.
  destruct (provider w messages); exact H.
Qed.

(** *** Invariants *)

Lemma stable_ret {A} (I : World -> Prop) (a : A) : stable I (ret a).
Proof. now apply triple_ret. Qed.

Lemma stable_throw {A} (I : World -> Prop) (e : exn) : stable I (@throw A e).
Proof. now apply triple_throw. Qed.

Lemma stable_ask {A} (I : World -> Prop) (f : World -> A) : stable I (ask f).
Proof. now apply triple_ask. Qed.

Lemma stable_bind {A B} (I : World -> Prop) (m : M A) (k : A -> M B) :
  stable I m -> (forall a, stable I (k a)) -> stable I (bind m k).
Proof. intros Hm Hk. eapply triple_bind; [exact Hm | auto | exact Hk]. Qed.

Lemma stable_try_catch {A} (I : World -> Prop) (body : M A)
    (handler : exn -> M A) :
  stable I body -> (forall e, stable I (handler e)) ->
  stable I (try_catch body handler).
Proof. intros Hb Hh. eapply triple_try_catch; [exact Hb | auto | exact Hh]. Qed.

Lemma stable_promise_all {A} (I : World -> Prop) (ps : list (M A)) :
  List.Forall (stable I) ps -> stable I (promise_all ps).
Proof.
  induction 1 as [|p ps Hp _ IH]; intros w Hw; simpl; [exact Hw|].
  specialize (Hp w Hw). destruct (p w) as [r w1]. simpl in Hp.
  specialize (IH w1 Hp). destruct (promise_all ps w1) as [rs w2]. exact IH.
Qed.

Lemma stable_query {A} (I : World -> Prop) (run : Tables -> Result A * Tables) :
  (forall w t, I w -> t = tables w \/ t = snd (run (tables w)) ->
     I (with_tables t (with_outcomes (tl (query_outcomes w)) w))) ->
  (forall w, I w -> I (with_outcomes (tl (query_outcomes w)) w)) ->
  stable I (query run).
Proof.
  intros Ht Ho. apply triple_query. intros w Hw. simpl.
  destruct (hd None (query_outcomes w)); [now apply Ho|].
  apply Ht; auto.
Qed.

Lemma stable_invokeLLM (I : World -> Prop) (messages : list Message) :
  (forall w, I w -> I (with_log (llm_log w ++ [messages]) w)) ->
  stable I (invokeLLM messages).
Proof.
  intros H. apply triple_invokeLLM. intros w Hw. simpl.
  destruct (provider w messages); now apply H.
Qed.

End MonadFacts.

(** ** Document processing *)

Module ProcessFacts.
Import MonadFacts Db Rag.

(** *** The status write *)

Lemma updateDocument_run (id : Z) (u : DocumentUpdates) (w : World) :
  updateDocument id u w
  = if connected w then
      let w1 := with_outcomes (tl (query_outcomes w)) w in
      match hd None (query_outcomes w) with
      | Some e => (Throw e, w1)
      | None =>
          (Ok (apply_updates u <$> documents (tables w) !! id),
           with_tables
             (set_documents (alter (apply_updates u) id (documents (tables w)))
                (tables w)) w1)
      end
    else (Throw not_available, w).
Proof.
  unfold updateDocument, bind, getDb, ask, query, throw.
  destruct (connected w); simpl; [|reflexivity].
  destruct (hd None (query_outcomes w)); reflexivity.
Qed.




(** *** The document stays in its table *)




(** *** Embedding generation talks to the provider only *)

Lemma generateEmbedding_stable (I : World -> Prop) (text : jsstring) :
  (forall w, I w -> I (with_log (llm_log w ++ [embedding_request text]) w)) ->
  stable I (generateEmbedding text).
Proof.
  intros H. unfold generateEmbedding.
  destruct (len (trim text) =? 0); [apply stable_throw|].
  apply stable_try_catch; [|intros e; apply stable_throw].
  apply stable_bind; [now apply stable_invokeLLM|].
  intros [] ; try apply stable_throw; apply stable_ret.
Qed.

Lemma embed_batches_stable (I : World -> Prop) (rounds : nat) :
  forall remaining embeddings,
    (forall text, In text remaining ->
       forall w, I w -> I (with_log (llm_log w ++ [embedding_request text]) w)) ->
    stable I (embed_batches rounds remaining embeddings).
Proof.
  induction rounds as [|rounds IH]; intros remaining embeddings H.
  - destruct remaining; apply stable_ret.
  - destruct remaining as [|c remaining]; [apply stable_ret|].
    cbn [embed_batches]. apply stable_bind.
    + apply stable_try_catch; [|intros e; apply stable_throw].
      apply stable_promise_all. apply List.Forall_forall.
      intros p Hp. apply in_map_iff in Hp as (text & <- & Hin).
      apply generateEmbedding_stable, H. eapply SearchFacts.In_firstn, Hin.
    + intros batch. apply IH. intros text Hin. apply H.
      rewrite <- (firstn_skipn 10 (c :: remaining)). apply in_or_app. now right.
Qed.

Lemma generateEmbeddingsBatch_stable (I : World -> Prop) (chunks : list jsstring) :
  (forall text, In text chunks ->
     forall w, I w -> I (with_log (llm_log w ++ [embedding_request text]) w)) ->
  stable I (generateEmbeddingsBatch chunks).
Proof. apply embed_batches_stable. Qed.

(** *** The [try] block *)


(** *** The whole function *)




End ProcessFacts.




(** ** Requests sent to the language model *)

Module RequestFacts.
Import MonadFacts Db Rag.

(** *** Storage functions send none *)

Lemma storage_blind_outcomes (I : World -> Prop) (w : World) (o : list (option exn)) :
  storage_blind I -> I w -> I (with_outcomes o w).
Proof.
  intros HI Hw. specialize (HI w (tables w) o Hw).
  destruct w; exact HI.
Qed.

Lemma blind_query {A} (I : World -> Prop) (run : Tables -> Result A * Tables) :
  storage_blind I -> stable I (query run).
Proof.
  intros HI. apply stable_query.
  - intros w t Hw _. now apply HI.
  - intros w Hw. now apply storage_blind_outcomes.
Qed.

Lemma blind_updateDocument (I : World -> Prop) (id : Z) (u : DocumentUpdates) :
  storage_blind I -> stable I (updateDocument id u).
Proof.
  intros HI. unfold updateDocument. apply stable_bind; [apply stable_ask|].
  intros db. destruct (negb db); [apply stable_throw | now apply blind_query].
Qed.

Lemma blind_createDocumentChunkBatch (I : World -> Prop)
    (chunks : list InsertDocumentChunk) :
  storage_blind I -> stable I (createDocumentChunkBatch chunks).
Proof.
  intros HI. unfold createDocumentChunkBatch. apply stable_bind; [apply stable_ask|].
  intros db. destruct (negb db); [apply stable_throw | now apply blind_query].
Qed.

Lemma blind_createEmbeddingBatch (I : World -> Prop) (l : list InsertEmbedding) :
  storage_blind I -> stable I (createEmbeddingBatch l).
Proof.
  intros HI. unfold createEmbeddingBatch. apply stable_bind; [apply stable_ask|].
  intros db. destruct (negb db); [apply stable_throw | now apply blind_query].
Qed.

Lemma blind_vectorSearch (I : World -> Prop) (projectId : Z)
    (vector : list json) (limit : Z) (threshold : Q) :
  storage_blind I -> stable I (Db.vectorSearch projectId vector limit threshold).
Proof.
  intros HI. unfold Db.vectorSearch. apply stable_bind; [apply stable_ask|].
  intros db. destruct (negb db); [apply stable_ret|].
  apply stable_bind; [apply stable_ask|]. intros dist. now apply blind_query.
Qed.

(** *** The log only grows by the requests made *)

Lemma only_requests_blind cfg before allowed :
  storage_blind (only_requests cfg before allowed).
Proof. intros w t o H. exact H. Qed.

Lemma only_requests_log cfg before allowed (request : list Message) (w : World) :
  allowed request ->
  only_requests cfg before allowed w ->
  only_requests cfg before allowed (with_log (llm_log w ++ [request]) w).
Proof.
  intros Hreq (Hcfg & requests & Hlog & Hall). split; [exact Hcfg|].
  exists (requests ++ [request]). simpl. rewrite Hlog, <- app_assoc.
  split; [reflexivity|]. apply List.Forall_app. split; [exact Hall|].
  now constructor.
Qed.

Lemma only_requests_weaken cfg before (allowed allowed' : list Message -> Prop)
    (w : World) :
  (forall r, allowed r -> allowed' r) ->
  only_requests cfg before allowed w -> only_requests cfg before allowed' w.
Proof.
  intros Himp (Hcfg & requests & Hlog & Hall). split; [exact Hcfg|].
  exists requests. split; [exact Hlog|].
  eapply List.Forall_impl; [exact Himp | exact Hall].
Qed.

Lemma only_requests_start (before : list (list Message))
    (allowed : list Message -> Prop) (w : World) :
  llm_log w = before -> only_requests (config w) before allowed w.
Proof.
  intros H. split; [reflexivity|]. exists []. rewrite app_nil_r. now split.
Qed.

(** *** Document processing only asks for embeddings of its chunks *)

Lemma processDocument_try_requests (documentId projectId : Z)
    (content : jsstring) (cfg : Config) (before : list (list Message)) :
  let chunks := Segmenter.intelligentChunk content (CHUNK_SIZE cfg) in
  stable (only_requests cfg before (embeds_one_of chunks))
    (processDocument_try documentId projectId content).
Proof.
  intros chunks. set (I := only_requests cfg before (embeds_one_of chunks)).
  assert (HI : storage_blind I) by apply only_requests_blind.
  assert (Hrest : stable I
    (if (length chunks =? 0)%nat then throw no_chunks
     else
       bind (createDocumentChunkBatch (chunk_rows documentId projectId chunks))
         (fun createdChunks =>
            bind (generateEmbeddingsBatch chunks)
              (fun embeddings =>
                 if negb (length embeddings =? length createdChunks)%nat
                 then throw count_mismatch
                 else
                   bind (createEmbeddingBatch
                           (embedding_rows documentId projectId
                              (EMBEDDING_MODEL cfg) embeddings createdChunks))
                     (fun _ =>
                        bind (updateDocument documentId
                                {| upd_status := Some completed;
                                   upd_errorMessage := None |})
                          (fun _ => ret tt)))))).
  { destruct (length chunks =? 0)%nat; [apply stable_throw|].
    apply stable_bind; [now apply blind_createDocumentChunkBatch|].
    intros createdChunks. apply stable_bind.
    { apply ProcessFacts.generateEmbeddingsBatch_stable.
      intros text Hin w Hw. apply only_requests_log; [|exact Hw].
      now exists text. }
    intros embeddings.
    destruct (negb (length embeddings =? length createdChunks)%nat);
      [apply stable_throw|].
    apply stable_bind; [now apply blind_createEmbeddingBatch|]. intros _.
    apply stable_bind; [now apply blind_updateDocument|]. intros _.
    apply stable_ret. }
  unfold processDocument_try.
  apply stable_bind; [now apply blind_updateDocument|]. intros _.
  intros w Hw. assert (Hc : config w = cfg) by apply Hw.
  unfold bind at 1. unfold ask. cbv beta iota. rewrite Hc.
  apply Hrest, Hw.
Qed.

Lemma processDocument_requests (documentId projectId : Z)
    (content : jsstring) (cfg : Config) (before : list (list Message)) :
  let chunks := Segmenter.intelligentChunk content (CHUNK_SIZE cfg) in
  stable (only_requests cfg before (embeds_one_of chunks))
    (processDocument documentId projectId content).
Proof.
  intros chunks. unfold processDocument.
  apply stable_try_catch; [apply processDocument_try_requests|].
  intros e. unfold processDocument_catch.
  apply stable_bind; [|intros _; apply stable_throw].
  apply blind_updateDocument, only_requests_blind.
Qed.

(** *** The chat turn *)

(** The search never rejects, and asks for nothing but embeddings of the
    query. *)
Lemma vectorSearch_requests (projectId : Z) (query : jsstring) (limit : Z)
    (threshold : Q) (cfg : Config) (before : list (list Message)) :
  triple (only_requests cfg before (embeds_one_of [query]))
    (Rag.vectorSearch projectId query limit threshold)
    (fun r w => only_requests cfg before (embeds_one_of [query]) w
                /\ exists chunks, r = Ok chunks).
Proof.
  set (I := only_requests cfg before (embeds_one_of [query])).
  assert (HI : storage_blind I) by apply only_requests_blind.
  unfold Rag.vectorSearch.
  destruct (len (trim query) =? 0).
  { apply triple_ret. intros w Hw. split; [exact Hw | now eexists]. }
  eapply triple_try_catch with (Q := fun _ w => I w).
  - apply stable_bind.
    + apply ProcessFacts.generateEmbedding_stable. intros w Hw.
      apply only_requests_log; [|exact Hw].
      exists query. split; [now left | reflexivity].
    + intros emb. apply stable_bind; [now apply blind_vectorSearch|].
      intros rows. apply stable_ret.
  - intros a w Hw. split; [exact Hw | now eexists].
  - intros e. apply triple_ret. intros w Hw. split; [exact Hw | now eexists].
Qed.

Lemma generateRAGResponse_log (query : jsstring) (context : Context.RAGContext)
    (model : ChatModel) (w : World) :
  llm_log (snd (generateRAGResponse query context model w))
  = llm_log w ++ [answer_request query context].
Proof.
  unfold generateRAGResponse, try_catch, bind, invokeLLM, ret, throw.
  destruct (provider w (answer_request query context)) as [e|response];
    [reflexivity|].
  destruct (response_content response); reflexivity.
Qed.

End RequestFacts.

(** C3 (as amended).  During a chat turn the request that asks the model for
    the answer is the last one sent, whatever was sent before it are requests
    for embeddings, and the question it carries is the message passed through
    [sanitizeUserInput].  While a document is processed, the only requests
    sent ask for the embedding of a chunk of the text as it was received,
    cut by [intelligentChunk]: no sanitizer runs on document text. *)
Theorem sanitizer_applied_to_answer_prompt :
  forall (input : Chat.ChatRequest) (w : World),
    (exists earlier context,
        llm_log (snd (Chat.sendMessage_respond input w))
        = llm_log w ++ earlier
            ++ [ [ {| msg_role := system; msg_content := Rag.systemPrompt |};
                   {| msg_role := user;
                      msg_content :=
                        Context.formatContextForPrompt context
                          ++ Context.nl ++ Context.nl ++ js "User question: "
                          ++ Sanitizer.sanitizeUserInput (Chat.req_message input) |} ] ]
        /\ List.Forall (fun request => exists text,
                          request = Rag.embedding_request text) earlier)
    /\ (forall (documentId projectId : Z) (content : jsstring),
          exists requests,
            llm_log (snd (Rag.processDocument documentId projectId content w))
            = llm_log w ++ requests
            /\ List.Forall
                 (embeds_one_of
                    (Segmenter.intelligentChunk content (CHUNK_SIZE (config w))))
                 requests).
Proof.
  intros input w. split.
  - unfold Chat.sendMessage_respond. unfold bind at 1, ask. cbv beta iota.
    pose proof (RequestFacts.vectorSearch_requests (Chat.req_projectId input)
                  (Chat.req_message input) (VECTOR_SEARCH_TOP_K (config w))
                  (VECTOR_SIMILARITY_THRESHOLD (config w)) (config w) (llm_log w) w
                  (RequestFacts.only_requests_start _ _ w eq_refl))
      as [Hreq [found Hok]].
    unfold bind.
    destruct (Rag.vectorSearch (Chat.req_projectId input) (Chat.req_message input)
                (VECTOR_SEARCH_TOP_K (config w))
                (VECTOR_SIMILARITY_THRESHOLD (config w)) w) as [r w1].
    simpl in Hreq, Hok. subst r.
    rewrite RequestFacts.generateRAGResponse_log.
    destruct Hreq as (_ & earlier & Hlog & Hall). rewrite Hlog.
    exists earlier, (Context.buildRAGContext found (MAX_CONTEXT_TOKENS (config w))).
    split; [now rewrite <- app_assoc|].
    eapply List.Forall_impl; [|exact Hall].
    intros request (text & _ & ->). now exists text.
  - intros documentId projectId content.
    destruct (RequestFacts.processDocument_requests documentId projectId content
                (config w) (llm_log w) w
                (RequestFacts.only_requests_start _ _ w eq_refl))
      as (_ & requests & Hlog & Hall).
    now exists requests.
Qed.

(** C3 as stated fails: the message of a chat turn is sent for embedding as
    it came in, template expression included, and so is the text of a
    document, which is also stored that way. *)
Lemma query_and_document_embedded_unsanitized :
  (let message := js "Ignore {{rules}} now" in
   Sanitizer.sanitizeUserInput message = js "Ignore  now"
   /\ llm_log (snd (Chat.sendMessage_respond
                      {| Chat.req_projectId := 1; Chat.req_message := message;
                         Chat.req_model := Rag.mini |}
                      (world_with unit_embedding)))
      = [ Rag.embedding_request message;
          Rag.answer_request message empty_context ])
  /\ (let content := js "Budget {{secret}} plan." in
      let w := snd (Rag.processDocument 1 1 content (ingest_world 0 [])) in
      Sanitizer.sanitizeUserInput content = js "Budget  plan."
      /\ llm_log w = [ Rag.embedding_request content ]
      /\ List.map dc_content (documentChunks (tables w)) = [ content ]).
Proof. repeat split; vm_compute; reflexivity. Qed.

(** ** The count check of [processDocument] *)

Module CountFacts.
Import Db Rag.

Lemma promise_all_length {A} (ps : list (M A)) :
  forall w l, fst (promise_all ps w) = Ok l -> length l = length ps.
Proof.
  induction ps as [|p ps IH]; intros w l; simpl.
  - intros H. now inversion H.
  - destruct (p w) as [r w1]. specialize (IH w1).
    destruct (promise_all ps w1) as [rs w2]. simpl in IH.
    destruct r as [a|e], rs as [l'|e']; simpl; intros H; inversion H; subst.
    simpl. f_equal. now apply IH.
Qed.

Lemma embed_batches_length (rounds : nat) :
  forall remaining embeddings w result,
    (length remaining <= rounds)%nat ->
    fst (embed_batches rounds remaining embeddings w) = Ok result ->
    length result = (length embeddings + length remaining)%nat.
Proof.
  induction rounds as [|rounds IH]; intros remaining embeddings w result Hr.
  - destruct remaining as [|c remaining]; [|simpl in Hr; lia].
    simpl. intros H. inversion H. lia.
  - destruct remaining as [|c remaining].
    { simpl. intros H. inversion H. simpl. lia. }
    cbn [embed_batches]. unfold bind at 1, try_catch, throw.
    assert (Hpos : (1 <= length (c :: remaining))%nat) by (simpl; lia).
    remember (c :: remaining) as todo eqn:Htodo. clear Htodo.
    pose proof (promise_all_length
                  (List.map generateEmbedding (firstn 10 todo)) w) as Hlen.
    destruct (promise_all _ w) as [[batch|e] w1]; cbn [fst] in *; [|discriminate].
    specialize (Hlen batch eq_refl).
    rewrite length_map, length_firstn in Hlen.
    intros H. apply IH in H.
    + rewrite H, length_app, Hlen, length_skipn. lia.
    + rewrite length_skipn. lia.
Qed.

Lemma insert_chunks_length (seq : Z) (chunks : list InsertDocumentChunk) :
  length (insert_chunks seq chunks) = length chunks.
Proof.
  revert seq. induction chunks as [|c chunks IH]; intros seq; simpl;
    [reflexivity | now rewrite IH].
Qed.

Lemma createDocumentChunkBatch_length (chunks : list InsertDocumentChunk)
    (w : World) (rows : list DocumentChunk) :
  fst (createDocumentChunkBatch chunks w) = Ok rows ->
  length rows = length chunks.
Proof.
  unfold createDocumentChunkBatch, bind, getDb, ask, query, throw.
  destruct (connected w); simpl; [|discriminate].
  destruct (hd None (query_outcomes w)); simpl; [discriminate|].
  intros H. inversion H. apply insert_chunks_length.
Qed.

Lemma mapi_from_length {A B} (f : nat -> A -> B) (l : list A) :
  forall i, length (Context.mapi_from f i l) = length l.
Proof. induction l as [|x l IH]; intros i; simpl; [reflexivity | now rewrite IH]. Qed.

(** Whenever both steps succeed, there are as many vectors as stored chunks:
    the mismatch branch of [processDocument] guards against a provider or a
    storage that would break its contract, and is not reached here. *)
Lemma counts_agree (documentId projectId : Z) (chunks : list jsstring)
    (w w1 : World) (createdChunks : list DocumentChunk)
    (embeddings : list (list json)) :
  createDocumentChunkBatch (chunk_rows documentId projectId chunks) w
  = (Ok createdChunks, w1) ->
  fst (generateEmbeddingsBatch chunks w1) = Ok embeddings ->
  length embeddings = length createdChunks.
Proof.
  intros Hc He.
  apply (f_equal fst) in Hc. simpl in Hc.
  apply createDocumentChunkBatch_length in Hc.
  unfold chunk_rows in Hc. rewrite mapi_from_length in Hc.
  apply embed_batches_length in He; [|lia]. simpl in He. lia.
Qed.

End CountFacts.

(* ===================================================================== *)
(** * Further properties *)
(* ===================================================================== *)

(** ** Fixed-width chunking *)

Module ChunkDocumentMore.
Import Segmenter JsStringFacts.

Lemma len_trimStart (s : jsstring) : len (trimStart s) <= len s.
Proof.
  induction s as [|c s IH]; simpl; [lia|].
  destruct (is_white_space c); unfold len in *; simpl; lia.
Qed.

Lemma len_trim (s : jsstring) : len (trim s) <= len s.
Proof.
  unfold trim, trimEnd.
  pose proof (len_trimStart (rev (trimStart s))) as H1.
  pose proof (len_trimStart s) as H2.
  unfold len in *. rewrite length_rev in *. lia.
Qed.

(** A window that lies inside the text. *)
Lemma substring_inside (s : jsstring) (a b : Z) :
  0 <= a <= b -> b <= len s ->
  substring s a b = firstn (Z.to_nat (b - a)) (skipn (Z.to_nat a) s).
Proof.
  intros Hab Hb. unfold substring.
  replace (Z.min (Z.max a 0) (len s)) with a by lia.
  replace (Z.min (Z.max b 0) (len s)) with b by lia.
  replace (Z.min a b) with a by lia. replace (Z.max a b) with b by lia.
  reflexivity.
Qed.

Lemma skipn_window (s : jsstring) (a b : Z) :
  0 <= a <= b -> b <= len s ->
  skipn (Z.to_nat a) s = substring s a b ++ skipn (Z.to_nat b) s.
Proof.
  intros Hab Hb. rewrite substring_inside by assumption.
  replace (Z.to_nat b) with (Z.to_nat (b - a) + Z.to_nat a)%nat by lia.
  rewrite <- skipn_skipn. symmetry. apply firstn_skipn.
Qed.

Lemma len_substring_inside (s : jsstring) (a b : Z) :
  0 <= a <= b -> b <= len s -> len (substring s a b) = b - a.
Proof.
  intros Hab Hb. rewrite substring_inside by assumption. unfold len in *.
  rewrite length_firstn, length_skipn. lia.
Qed.

(** *** Whatever the parameters, no empty chunk *)

Lemma chunk_loop_nonempty (content : jsstring) (chunkSize overlap : Z) (fuel : nat) :
  forall start chunks result,
    List.Forall (fun c => c <> []) chunks ->
    chunk_loop fuel content chunkSize overlap start chunks = Some result ->
    List.Forall (fun c => c <> []) result.
Proof.
  induction fuel as [|fuel IH]; intros start chunks result Hacc; [discriminate|].
  simpl. destruct (start <? len content);
    [|intros H; inversion H; subst; exact Hacc].
  set (chunk := trim (substring content start
                        (Z.min (start + chunkSize) (len content)))).
  assert (Hnext : List.Forall (fun c => c <> [])
                    (if 0 <? len chunk then chunks ++ [chunk] else chunks)).
  { destruct (Z.ltb_spec 0 (len chunk)) as [Hpos|_]; [|exact Hacc].
    apply List.Forall_app. split; [exact Hacc|]. constructor; [|constructor].
    intros E. rewrite E in Hpos. unfold len in Hpos. simpl in Hpos. lia. }
  destruct (_ - overlap <? 0); [intros H; inversion H; subst; exact Hnext|].
  now apply IH.
Qed.

(** *** Windows that do not overlap *)

Lemma chunk_loop_no_overlap (content : jsstring) (chunkSize : Z) :
  0 < chunkSize ->
  forall fuel start chunks,
    0 <= start <= len content ->
    (Z.to_nat (len content - start) < fuel)%nat ->
    exists result,
      chunk_loop fuel content chunkSize 0 start chunks = Some result
      /\ non_space (concat result)
         = non_space (concat chunks) ++ non_space (skipn (Z.to_nat start) content)
      /\ (List.Forall (fun c => len c <= chunkSize) chunks ->
          List.Forall (fun c => len c <= chunkSize) result).
Proof.
  intros Hsize. induction fuel as [|fuel IH]; intros start chunks Hs Hfuel; [lia|].
  simpl.
  destruct (Z.ltb_spec start (len content)) as [Hlt|Hge].
  - set (end_ := Z.min (start + chunkSize) (len content)).
    set (chunk := trim (substring content start end_)).
    assert (Hend : start < end_ <= len content) by (unfold end_; lia).
    replace (end_ - 0 <? 0) with false by (symmetry; apply Z.ltb_ge; lia).
    replace (end_ - 0) with end_ by lia.
    destruct (IH end_ (if 0 <? len chunk then chunks ++ [chunk] else chunks))
      as (result & Hrun & Hcontent & Hbound); [lia | lia |].
    exists result. split; [exact Hrun|]. split.
    + rewrite Hcontent.
      rewrite (skipn_window content start end_) by lia.
      rewrite non_space_app, <- (non_space_trim (substring content start end_)).
      fold chunk. rewrite app_assoc. f_equal.
      destruct (Z.ltb_spec 0 (len chunk)) as [Hpos|Hzero].
      * rewrite IntelligentChunkFacts.concat_snoc. apply non_space_app.
      * assert (chunk = []) as -> by (apply len_zero_iff; pose proof (len_nonneg chunk); lia).
        simpl. now rewrite app_nil_r.
    + intros Hall. apply Hbound.
      destruct (0 <? len chunk); [|exact Hall].
      apply List.Forall_app. split; [exact Hall|]. constructor; [|constructor].
      unfold chunk. pose proof (len_trim (substring content start end_)).
      rewrite len_substring_inside in H by lia. unfold end_ in *. lia.
  - exists chunks. split; [reflexivity|]. split; [|auto].
    assert (start = len content) as -> by lia.
    unfold len. rewrite Nat2Z.id, skipn_all. simpl. now rewrite app_nil_r.
Qed.

End ChunkDocumentMore.

(** X1.  With a positive overlap that is at most the window size and at
    most the length of the text, [chunkDocument] never returns: no number of
    loop tests is enough. *)
Theorem chunkDocument_diverges_with_overlap :
  forall (content : jsstring) (chunkSize overlap : Z),
    0 < overlap <= chunkSize -> overlap <= len content ->
    forall fuel : nat,
      Segmenter.chunkDocument fuel content chunkSize overlap = None.
Proof.
  intros content chunkSize overlap Hov Hlen fuel.
  now apply ChunkDocumentFacts.chunkDocument_never_returns.
Qed.

Lemma chunkDocument_diverges_with_overlap_witness :
  Segmenter.chunkDocument 1000 (js "abcdefghij") 5 2 = None.
Proof.
  apply (chunkDocument_diverges_with_overlap (js "abcdefghij") 5 2).
  - lia.
  - vm_compute. discriminate.
Defined.

(** X2.  Without overlap and with a positive window size, [chunkDocument]
    returns once it is given more loop tests than the text has characters;
    the chunks hold the characters of the text other than white space, in
    order; and when the text is not blank every chunk is at most
    [chunkSize] long. *)
Theorem chunkDocument_without_overlap_partitions :
  forall (content : jsstring) (chunkSize : Z) (fuel : nat),
    0 < chunkSize ->
    (length content < fuel)%nat ->
    exists chunks,
      Segmenter.chunkDocument fuel content chunkSize 0 = Some chunks
      /\ non_space (concat chunks) = non_space content
      /\ (non_space content <> [] ->
          List.Forall (fun c => len c <= chunkSize) chunks).
Proof.
  intros content chunkSize fuel Hsize Hfuel. unfold Segmenter.chunkDocument.
  destruct content as [|c0 content'] eqn:Hc; [now exists []|]. rewrite <- Hc in *.
  destruct (ChunkDocumentMore.chunk_loop_no_overlap content chunkSize Hsize fuel 0 [])
    as (result & Hrun & Hcontent & Hbound).
  { pose proof (JsStringFacts.len_nonneg content). lia. }
  { unfold len. lia. }
  rewrite Hrun. change (Z.to_nat 0) with 0%nat in Hcontent.
  rewrite skipn_O in Hcontent. simpl in Hcontent.
  destruct result as [|r result].
  - exists [content]. simpl. rewrite app_nil_r. split; [reflexivity|].
    split; [reflexivity|]. intros Hne. simpl in Hcontent. congruence.
  - exists (r :: result). split; [reflexivity|]. split; [exact Hcontent|].
    intros _. now apply Hbound.
Qed.

Lemma chunkDocument_without_overlap_partitions_witness :
  exists chunks,
    Segmenter.chunkDocument 11 (js "abcdefghij") 4 0 = Some chunks
    /\ non_space (concat chunks) = non_space (js "abcdefghij")
    /\ (non_space (js "abcdefghij") <> [] ->
        List.Forall (fun c => len c <= 4) chunks).
Proof.
  apply (chunkDocument_without_overlap_partitions (js "abcdefghij") 4 11).
  - lia.
  - simpl. lia.
Defined.

(** X3.  Whenever [chunkDocument] returns, whatever the window size and the
    overlap, no chunk of the result is empty, and the result is empty only
    for the empty text. *)
Theorem chunkDocument_never_emits_empty_chunk :
  forall (content : jsstring) (chunkSize overlap : Z) (fuel : nat)
         (chunks : list jsstring),
    Segmenter.chunkDocument fuel content chunkSize overlap = Some chunks ->
    List.Forall (fun c => c <> []) chunks
    /\ (chunks = [] <-> content = []).
Proof.
  intros content chunkSize overlap fuel chunks. unfold Segmenter.chunkDocument.
  destruct content as [|c0 content'].
  - intros H. inversion H. split; [constructor | tauto].
  - destruct (Segmenter.chunk_loop fuel (c0 :: content') chunkSize overlap 0 [])
      as [result|] eqn:E; [|discriminate].
    apply ChunkDocumentMore.chunk_loop_nonempty in E; [|constructor].
    intros H. inversion H; subst; clear H.
    destruct result as [|r result]; simpl.
    + split; [repeat constructor; discriminate | split; discriminate].
    + split; [exact E | split; discriminate].
Qed.

Lemma chunkDocument_never_emits_empty_chunk_witness :
  List.Forall (fun c => c <> []) [js "This"]
  /\ ([js "This"] = [] <-> js "This is a test." = []).
Proof.
  apply (chunkDocument_never_emits_empty_chunk (js "This is a test.") 5 200 10).
  reflexivity.
Defined.

(** X4.  When the first window is shorter than the overlap (the text or the
    window size is smaller than the overlap), [chunkDocument] stops after
    that window: a non-empty text gives the trimmed first window alone, or
    the whole text when that window is blank; what follows the first window
    is not chunked. *)
Theorem chunkDocument_stops_after_first_window :
  forall (content : jsstring) (chunkSize overlap : Z) (fuel : nat),
    content <> [] ->
    Z.min chunkSize (len content) < overlap ->
    Segmenter.chunkDocument (S fuel) content chunkSize overlap
    = Some (match first_window content chunkSize with
            | [] => [content]
            | chunk => [chunk]
            end).
Proof.
  intros content chunkSize overlap fuel Hne Hshort.
  unfold Segmenter.chunkDocument, first_window.
  destruct content as [|c0 content']; [congruence|].
  set (content := c0 :: content') in *.
  assert (Hlen : 0 < len content) by (unfold len, content; simpl; lia).
  simpl Segmenter.chunk_loop.
  replace (0 <? len content) with true by (symmetry; apply Z.ltb_lt; lia).
  replace (0 + chunkSize) with chunkSize by lia.
  replace (Z.min chunkSize (len content) - overlap <? 0) with true
    by (symmetry; apply Z.ltb_lt; lia).
  destruct (trim (substring content 0 (Z.min chunkSize (len content))))
    as [|t ts] eqn:E; reflexivity.
Qed.

Lemma chunkDocument_stops_after_first_window_witness :
  Segmenter.chunkDocument 1 (js "This is a test.") 5 200 = Some [js "This"].
Proof.
  apply (chunkDocument_stops_after_first_window (js "This is a test.") 5 200 0).
  - discriminate.
  - vm_compute. reflexivity.
Defined.

(** ** Sentence chunking *)

Module SentenceMore.
Import Segmenter JsStringFacts.

Lemma terminator_not_space (c : code_unit) :
  is_terminator c = true -> is_white_space c = false.
Proof.
  unfold is_terminator. intros H.
  destruct c as [|p]; [discriminate|].
  do 7 (try (destruct p as [p|p|]); try discriminate H); reflexivity.
Qed.

Lemma has_boundary_cons (c : code_unit) (p : jsstring) :
  has_boundary p = false ->
  (is_terminator c = true -> head_not_space [p]) ->
  has_boundary (c :: p) = false.
Proof.
  intros Hp Hc. destruct p as [|b p]; [reflexivity|].
  change (has_boundary (c :: b :: p))
    with ((is_terminator c && is_white_space b) || has_boundary (b :: p)).
  rewrite Hp, orb_false_r.
  destruct (is_terminator c) eqn:E; [|reflexivity].
  simpl in Hc. now rewrite (Hc eq_refl).
Qed.

(** No piece of the split holds a boundary; right after one of [.!?] the
    piece being read does not go on with white space. *)
Lemma split_from_no_boundary (s : jsstring) :
  forall afterTerm inSep,
    List.Forall (fun p => has_boundary p = false) (split_from afterTerm inSep s)
    /\ (afterTerm = true -> inSep = false ->
        head_not_space (split_from afterTerm inSep s)).
Proof.
  induction s as [|c s IH]; intros afterTerm inSep.
  - split; [repeat constructor | intros _ _; exact I].
  - simpl split_from. destruct (is_white_space c) eqn:Hws.
    + destruct inSep.
      * split; [apply IH | discriminate].
      * destruct afterTerm.
        -- split; [constructor; [reflexivity | apply IH] | intros _ _; exact I].
        -- destruct (IH false false) as [Hall _]. split; [|discriminate].
           destruct (split_from false false s) as [|p ps]; [repeat constructor|].
           inversion Hall as [|? ? Hp Hps]; subst. simpl.
           constructor; [|exact Hps].
           apply has_boundary_cons; [exact Hp|].
           intros Ht. apply terminator_not_space in Ht. congruence.
    + destruct (IH (is_terminator c) false) as [Hall Hhead].
      split.
      * destruct (split_from (is_terminator c) false s) as [|p ps];
          [repeat constructor|].
        inversion Hall as [|? ? Hp Hps]; subst. simpl.
        constructor; [|exact Hps].
        apply has_boundary_cons; [exact Hp|].
        intros Ht. specialize (Hhead Ht eq_refl).
        destruct p; [exact I | exact Hhead].
      * intros _ _.
        destruct (split_from (is_terminator c) false s) as [|p ps]; simpl; exact Hws.
Qed.

(** *** Chunks are groups of consecutive sentences *)

Lemma join_group_snoc (g : list jsstring) (s : jsstring) :
  g <> [] -> join_group (g ++ [s]) = join_space (join_group g) s.
Proof.
  unfold join_group, join_space. induction g as [|x g IH]; [congruence|].
  intros _. destruct g as [|y g].
  - reflexivity.
  - change (Context.join [32%N] ((x :: y :: g) ++ [s]))
      with (x ++ [32%N] ++ Context.join [32%N] ((y :: g) ++ [s])).
    rewrite IH by discriminate.
    change (Context.join [32%N] (x :: y :: g))
      with (x ++ [32%N] ++ Context.join [32%N] (y :: g)).
    now rewrite <- !app_assoc.
Qed.

Lemma join_group_nil_iff (g : list jsstring) :
  List.Forall (fun s => s <> []) g -> join_group g = [] -> g = [].
Proof.
  intros Hg. destruct g as [|x g]; [reflexivity|].
  inversion Hg as [|? ? Hx _]; subst. unfold join_group.
  destruct g as [|y g]; simpl; [congruence|].
  destruct x; [congruence | discriminate].
Qed.

Lemma chunk_sentences_groups (target : Z) (sentences : list jsstring) :
  List.Forall (fun s : jsstring => s <> []) sentences ->
  forall (done : list (list jsstring)) (group : list jsstring),
    List.Forall (fun s : jsstring => s <> []) group ->
    List.Forall (fun g : list jsstring => g <> []) done ->
    exists groups,
      flush (chunk_sentences target (List.map join_group done)
               (join_group group) sentences)
      = List.map join_group groups
      /\ concat groups = concat done ++ group ++ sentences
      /\ List.Forall (fun g => g <> []) groups.
Proof.
  induction sentences as [|s rest IH]; intros Hs done group Hgroup Hdone.
  - simpl chunk_sentences. unfold flush. simpl.
    destruct (join_group group) as [|c cur] eqn:E.
    + apply join_group_nil_iff in E; [|exact Hgroup]. subst group.
      exists done. rewrite !app_nil_r. auto.
    + exists (done ++ [group]). rewrite List.map_app. simpl. rewrite E.
      split; [reflexivity|]. split.
      * rewrite concat_app. simpl. now rewrite !app_nil_r.
      * apply List.Forall_app. split; [exact Hdone|].
        constructor; [|constructor]. intros ->. discriminate.
  - inversion Hs as [|? ? Hs1 Hs2]; subst. simpl chunk_sentences.
    destruct (join_group group) as [|c cur] eqn:E.
    + apply join_group_nil_iff in E; [|exact Hgroup]. subst group.
      destruct (len s <=? target).
      * destruct (IH Hs2 done [s]) as (groups & H1 & H2 & H3);
          [now constructor | exact Hdone |].
        exists groups. split; [exact H1|]. split; [exact H2 | exact H3].
      * destruct (IH Hs2 done [s]) as (groups & H1 & H2 & H3);
          [now constructor | exact Hdone |].
        exists groups. split; [exact H1|]. split; [exact H2 | exact H3].
    + assert (Hne : group <> []) by (intros ->; discriminate).
      destruct (len (join_space (c :: cur) s) <=? target).
      * destruct (IH Hs2 done (group ++ [s])) as (groups & H1 & H2 & H3);
          [apply List.Forall_app; split; [exact Hgroup | now constructor]
          | exact Hdone |].
        assert (J : join_group (group ++ [s]) = join_space (c :: cur) s)
          by (rewrite <- E; now apply join_group_snoc).
        rewrite J in H1.
        exists groups. split; [exact H1|]. split; [|exact H3].
        rewrite H2, <- !app_assoc. reflexivity.
      * destruct (IH Hs2 (done ++ [group]) [s]) as (groups & H1 & H2 & H3);
          [now constructor
          | apply List.Forall_app; split; [exact Hdone | now constructor] |].
        rewrite List.map_app in H1. simpl in H1. rewrite E in H1.
        exists groups. split; [exact H1|]. split; [|exact H3].
        rewrite H2, concat_app. simpl. now rewrite app_nil_r, <- !app_assoc.
Qed.

End SentenceMore.

(** X5.  [intelligentChunk] never splits or reorders a sentence: the
    sentences of [splitBySentences] can be cut into consecutive non-empty
    groups such that the chunks are these groups, each joined with single
    spaces. *)
Theorem intelligentChunk_groups_consecutive_sentences :
  forall (content : jsstring) (targetChunkSize : Z),
    exists groups : list (list jsstring),
      concat groups = Segmenter.splitBySentences content
      /\ List.Forall (fun g => g <> []) groups
      /\ Segmenter.intelligentChunk content targetChunkSize
         = List.map join_group groups.
Proof.
  intros content target.
  rewrite IntelligentChunkFacts.intelligentChunk_flush.
  destruct (SentenceMore.chunk_sentences_groups target
              (Segmenter.splitBySentences content)) with (done := @nil (list jsstring))
                                                         (group := @nil jsstring)
    as (groups & H1 & H2 & H3); try constructor.
  - apply List.Forall_forall. intros s Hs.
    now apply (IntelligentChunkFacts.splitBySentences_nonempty content).
  - exists groups. simpl in H1, H2. auto.
Qed.

(** X6.  Every sentence returned by [splitBySentences] holds a character
    that is not white space, and none holds a sentence boundary, that is one
    of [.!?] immediately followed by white space. *)
Theorem splitBySentences_sentences_are_whole :
  forall (content sentence : jsstring),
    In sentence (Segmenter.splitBySentences content) ->
    non_space sentence <> [] /\ has_boundary sentence = false.
Proof.
  intros content sentence H. unfold Segmenter.splitBySentences in H.
  apply List.filter_In in H as [Hin Htext]. split.
  - intros Hblank. apply JsStringFacts.trim_nil_iff in Hblank.
    rewrite Hblank in Htext. discriminate.
  - destruct (SentenceMore.split_from_no_boundary content false false) as [Hall _].
    now apply (proj1 (List.Forall_forall _ _) Hall).
Qed.

Lemma splitBySentences_sentences_are_whole_witness :
  non_space (js "Sentence two.") <> []
  /\ has_boundary (js "Sentence two.") = false.
Proof.
  apply (splitBySentences_sentences_are_whole
           (js "Sentence one. Sentence two. Sentence three.")).
  vm_compute. right. left. reflexivity.
Defined.

(** ** Context assembly *)

Module ContextMore.
Import Context.

Lemma select_chunks_within_budget (maxTokens : Z) (rest : list RAGChunk) :
  forall total selected,
    select_chunks maxTokens total selected rest
    = {| chunks := selected ++ within_budget maxTokens total rest;
         totalTokens := total + tokens_of (within_budget maxTokens total rest) |}.
Proof.
  induction rest as [|c rest IH]; intros total selected; simpl.
  - now rewrite app_nil_r, Z.add_0_r.
  - destruct (total + estimateTokens (content c) <=? maxTokens).
    + rewrite IH, <- app_assoc. simpl. f_equal. lia.
    + simpl. now rewrite app_nil_r, Z.add_0_r.
Qed.

Lemma within_budget_again (maxTokens : Z) (ranked : list RAGChunk) :
  forall total,
    within_budget maxTokens total (within_budget maxTokens total ranked)
    = within_budget maxTokens total ranked.
Proof.
  induction ranked as [|c ranked IH]; intros total; simpl; [reflexivity|].
  destruct (total + estimateTokens (content c) <=? maxTokens) eqn:E;
    [|reflexivity].
  simpl. rewrite E. f_equal. apply IH.
Qed.

Lemma within_budget_grows (small large : Z) (ranked : list RAGChunk) :
  small <= large ->
  forall total,
    exists more,
      within_budget large total ranked
      = within_budget small total ranked ++ more.
Proof.
  intros Hle. induction ranked as [|c ranked IH]; intros total; simpl.
  - now exists [].
  - destruct (Z.leb_spec (total + estimateTokens (content c)) small) as [H|H].
    + replace (total + estimateTokens (content c) <=? large) with true
        by (symmetry; apply Z.leb_le; lia).
      destruct (IH (total + estimateTokens (content c))) as [more ->].
      now exists more.
    + now eexists.
Qed.

(** *** Formatting *)

Lemma contains_refl (s : jsstring) : contains s s.
Proof. exists [], []. now rewrite app_nil_r. Qed.

Lemma contains_app_l (part a b : jsstring) : contains part a -> contains part (a ++ b).
Proof.
  intros (x & y & ->). exists x, (y ++ b). now rewrite <- !app_assoc.
Qed.

Lemma contains_app_r (part a b : jsstring) : contains part b -> contains part (a ++ b).
Proof.
  intros (x & y & ->). exists (a ++ x), y. now rewrite <- !app_assoc.
Qed.

Lemma contains_join (sep part : jsstring) (parts : list jsstring) :
  List.Exists (contains part) parts -> contains part (join sep parts).
Proof.
  induction parts as [|p parts IH]; intros H; [inversion H|].
  destruct parts as [|q parts].
  - inversion H as [? ? Hp|? ? Hq]; subst; [exact Hp | inversion Hq].
  - change (join sep (p :: q :: parts)) with (p ++ sep ++ join sep (q :: parts)).
    inversion H as [? ? Hp|? ? Hq]; subst.
    + now apply contains_app_l.
    + apply contains_app_r, contains_app_r, IH, Hq.
Qed.

Lemma format_chunk_contains (index : nat) (chunk : RAGChunk) :
  contains (title chunk) (format_chunk index chunk)
  /\ contains (content chunk) (format_chunk index chunk).
Proof.
  unfold format_chunk. split.
  - do 3 apply contains_app_r. apply contains_app_l, contains_refl.
  - do 7 apply contains_app_r. apply contains_refl.
Qed.

Lemma mapi_from_exists (part : jsstring) (P : RAGChunk -> jsstring)
    (chunk : RAGChunk) (l : list RAGChunk) :
  (forall i, contains (P chunk) (format_chunk i chunk)) ->
  In chunk l ->
  forall i, List.Exists (contains (P chunk)) (mapi_from format_chunk i l).
Proof.
  intros HP. induction l as [|x l IH]; intros Hin i; [contradiction|].
  simpl. destruct Hin as [->|Hin]; [left; apply HP | right; now apply IH].
Qed.

End ContextMore.

(** X7.  Selecting again, under the same budget, from the chunks that
    [buildRAGContext] selected changes nothing: the same chunks and the same
    total come back. *)
Theorem buildRAGContext_idempotent :
  forall (ranked : list Context.RAGChunk) (maxTokens : Z),
    Context.buildRAGContext
      (Context.chunks (Context.buildRAGContext ranked maxTokens)) maxTokens
    = Context.buildRAGContext ranked maxTokens.
Proof.
  intros ranked maxTokens. unfold Context.buildRAGContext.
  rewrite !ContextMore.select_chunks_within_budget. simpl.
  now rewrite ContextMore.within_budget_again.
Qed.

(** X8.  A larger budget never drops a chunk that a smaller one selected:
    the selection under the smaller budget is a prefix of the selection under
    the larger one. *)
Theorem buildRAGContext_monotone_in_budget :
  forall (ranked : list Context.RAGChunk) (small large : Z),
    small <= large ->
    exists more,
      Context.chunks (Context.buildRAGContext ranked large)
      = Context.chunks (Context.buildRAGContext ranked small) ++ more.
Proof.
  intros ranked small large Hle. unfold Context.buildRAGContext.
  rewrite !ContextMore.select_chunks_within_budget. simpl.
  now apply ContextMore.within_budget_grows.
Qed.

Lemma buildRAGContext_monotone_in_budget_witness :
  exists more,
    Context.chunks
      (Context.buildRAGContext [sample_chunk "12345678"; sample_chunk "1234"] 3)
    = Context.chunks
        (Context.buildRAGContext [sample_chunk "12345678"; sample_chunk "1234"] 2)
      ++ more.
Proof.
  apply (buildRAGContext_monotone_in_budget
           [sample_chunk "12345678"; sample_chunk "1234"] 2 3).
  lia.
Defined.

(** X9.  [formatContextForPrompt] gives the empty string exactly for a
    context without chunk; otherwise the text holds the title and the
    content of every chunk of the context. *)
Theorem formatContextForPrompt_holds_every_chunk :
  forall (context : Context.RAGContext),
    (Context.formatContextForPrompt context = [] <-> Context.chunks context = [])
    /\ (forall chunk, In chunk (Context.chunks context) ->
          contains (Context.title chunk) (Context.formatContextForPrompt context)
          /\ contains (Context.content chunk)
               (Context.formatContextForPrompt context)).
Proof.
  intros context. unfold Context.formatContextForPrompt.
  destruct (Context.chunks context) as [|c cs] eqn:E.
  - split; [tauto | contradiction].
  - split; [split; discriminate|].
    intros chunk Hin. split.
    + do 3 apply ContextMore.contains_app_r. apply ContextMore.contains_join.
      apply (ContextMore.mapi_from_exists (Context.title chunk) Context.title);
        [|exact Hin].
      intros i. apply ContextMore.format_chunk_contains.
    + do 3 apply ContextMore.contains_app_r. apply ContextMore.contains_join.
      apply (ContextMore.mapi_from_exists (Context.content chunk) Context.content);
        [|exact Hin].
      intros i. apply ContextMore.format_chunk_contains.
Qed.

Lemma formatContextForPrompt_holds_every_chunk_witness :
  contains (js "Guide")
    (Context.formatContextForPrompt
       {| Context.chunks := [sample_chunk "Body"]; Context.totalTokens := 1 |})
  /\ contains (js "Body")
       (Context.formatContextForPrompt
          {| Context.chunks := [sample_chunk "Body"]; Context.totalTokens := 1 |}).
Proof.
  apply (proj2 (formatContextForPrompt_holds_every_chunk
                  {| Context.chunks := [sample_chunk "Body"];
                     Context.totalTokens := 1 |}) (sample_chunk "Body")).
  now left.
Defined.

(** ** Sanitizer *)

Module SanitizerMore.
Import Sanitizer.

Lemma find_after_suffix (closer s rest : jsstring) :
  find_after closer s = Some rest -> exists n, rest = skipn n s.
Proof.
  induction s as [|c s IH]; simpl find_after.
  - destruct (starts_with closer []); [|discriminate].
    intros H. inversion H. now exists (length closer).
  - destruct (starts_with closer (c :: s)).
    + intros H. inversion H. now exists (length closer).
    + intros H. destruct (IH H) as [n ->]. now exists (S n).
Qed.

Lemma remove_matches_sublist (opener closer : jsstring) (fuel : nat) :
  forall s, sublist (remove_matches fuel opener closer s) s.
Proof.
  induction fuel as [|fuel IH]; intros s; [reflexivity|].
  destruct s as [|c s]; [reflexivity|]. simpl remove_matches.
  destruct (starts_with opener (c :: s)).
  - destruct (find_after closer (skipn (length opener) (c :: s))) as [rest|] eqn:E.
    + apply find_after_suffix in E as [n ->].
      etransitivity; [apply IH|].
      etransitivity; apply sublist_drop.
    + apply sublist_skip, IH.
  - apply sublist_skip, IH.
Qed.

Lemma trimStart_suffix (s : jsstring) : exists n, trimStart s = skipn n s.
Proof.
  induction s as [|c s [n IH]]; simpl; [now exists 0%nat|].
  destruct (is_white_space c); [exists (S n); exact IH | now exists 0%nat].
Qed.

Lemma trim_sublist (s : jsstring) : sublist (trim s) s.
Proof.
  unfold trim, trimEnd.
  destruct (trimStart_suffix s) as [n ->].
  destruct (trimStart_suffix (rev (skipn n s))) as [m ->].
  rewrite skipn_rev, rev_involutive.
  etransitivity; [apply sublist_take | apply sublist_drop].
Qed.

Lemma sanitizeUserInput_sublist (input : jsstring) :
  sublist (sanitizeUserInput input) input.
Proof.
  unfold sanitizeUserInput. destruct input as [|c input]; [reflexivity|].
  assert (H : sublist (trim (strip_regions (c :: input))) (c :: input)).
  { etransitivity; [apply trim_sublist|]. unfold strip_regions, replace_all.
    etransitivity; [apply remove_matches_sublist|].
    etransitivity; apply remove_matches_sublist. }
  destruct (5000 <? len (trim (strip_regions (c :: input)))); [|exact H].
  rewrite SanitizerFacts.substring_prefix by lia.
  etransitivity; [apply sublist_take | exact H].
Qed.

End SanitizerMore.

(** X10.  [sanitizeUserInput] only deletes: its result is a subsequence of
    its input (the characters that remain are characters of the input, in
    their order), and so is never longer than the input. *)
Theorem sanitizeUserInput_only_deletes :
  forall input : jsstring,
    sublist (Sanitizer.sanitizeUserInput input) input
    /\ len (Sanitizer.sanitizeUserInput input) <= len input.
Proof.
  intros input. pose proof (SanitizerMore.sanitizeUserInput_sublist input) as H.
  split; [exact H|]. apply sublist_length in H. unfold len. lia.
Qed.

(** X11.  A text of at most 5000 characters that holds none of the opening
    markers (three backticks, two opening braces, a dollar followed by an
    opening brace) and neither starts nor ends with white space comes out of
    [sanitizeUserInput] unchanged. *)
Theorem sanitizeUserInput_preserves_plain_text :
  forall text : jsstring,
    occurs Sanitizer.fence text = false ->
    occurs Sanitizer.open_braces text = false ->
    occurs Sanitizer.open_interp text = false ->
    trimStart text = text ->
    ends_with_space text = false ->
    len text <= 5000 ->
    Sanitizer.sanitizeUserInput text = text.
Proof. intros text. apply SanitizerFacts.sanitizeUserInput_clean. Qed.

Lemma sanitizeUserInput_preserves_plain_text_witness :
  Sanitizer.sanitizeUserInput (js "What is the meaning of life?")
  = js "What is the meaning of life?".
Proof.
  apply (sanitizeUserInput_preserves_plain_text (js "What is the meaning of life?"));
    try reflexivity.
  vm_compute. discriminate.
Defined.

(** ** Embedding generation *)

Module EmbeddingMore.
Import Rag.

Lemma generateEmbedding_ok (text : jsstring) (w : World) (vector : list json) :
  fst (generateEmbedding text w) = Ok vector ->
  len (trim text) <> 0
  /\ provider w (embedding_request text) = inr (JArr vector)
  /\ snd (generateEmbedding text w)
     = with_log (llm_log w ++ [embedding_request text]) w.
Proof.
  unfold generateEmbedding, try_catch, bind, invokeLLM, throw, ret.
  destruct (Z.eqb_spec (len (trim text)) 0) as [|Hne]; [discriminate|].
  destruct (provider w (embedding_request text)) as [e|response]; [discriminate|].
  destruct response; simpl; try discriminate.
  intros H. inversion H. auto.
Qed.

(** Without text nothing is asked of the provider. *)
Lemma generateEmbedding_blank (text : jsstring) (w : World) :
  len (trim text) = 0 ->
  generateEmbedding text w = (Throw (Error (js "Text cannot be empty")), w).
Proof. intros H. unfold generateEmbedding. now rewrite H. Qed.

Lemma with_log_twice (l l' : list (list Message)) (w : World) :
  with_log l (with_log l' w) = with_log l w.
Proof. reflexivity. Qed.

Lemma promise_all_embeddings (batch : list jsstring) :
  forall w vectors,
    fst (promise_all (List.map generateEmbedding batch) w) = Ok vectors ->
    Forall2 (fun text vector =>
               len (trim text) <> 0
               /\ provider w (embedding_request text) = inr (JArr vector))
            batch vectors
    /\ snd (promise_all (List.map generateEmbedding batch) w)
       = with_log (llm_log w ++ List.map embedding_request batch) w.
Proof.
  induction batch as [|text batch IH]; intros w vectors; simpl.
  - intros H. inversion H. split; [constructor|].
    rewrite app_nil_r. now destruct w.
  - pose proof (generateEmbedding_ok text w) as Hone.
    destruct (generateEmbedding text w) as [r w1]. simpl in Hone.
    specialize (IH w1).
    destruct (promise_all (List.map generateEmbedding batch) w1) as [rs w2].
    simpl in IH.
    destruct r as [v|e]; [|discriminate].
    destruct rs as [vs|e]; [|discriminate].
    simpl. intros H. inversion H; subst; clear H.
    destruct (Hone v eq_refl) as (Hne & Hp & ->).
    destruct (IH vs eq_refl) as (Hall & ->).
    split; [constructor; [now split | exact Hall]|].
    simpl. rewrite with_log_twice, <- app_assoc. reflexivity.
Qed.

Lemma embed_batches_positional (rounds : nat) :
  forall remaining embeddings w result,
    (length remaining <= rounds)%nat ->
    fst (embed_batches rounds remaining embeddings w) = Ok result ->
    exists new,
      result = embeddings ++ new
      /\ Forall2 (fun text vector =>
                    len (trim text) <> 0
                    /\ provider w (embedding_request text) = inr (JArr vector))
                 remaining new
      /\ snd (embed_batches rounds remaining embeddings w)
         = with_log (llm_log w ++ List.map embedding_request remaining) w.
Proof.
  induction rounds as [|rounds IH]; intros remaining embeddings w result Hr.
  - destruct remaining as [|c remaining]; [|simpl in Hr; lia].
    simpl. intros H. inversion H. exists []. rewrite !app_nil_r.
    split; [reflexivity|]. split; [constructor | now destruct w].
  - destruct remaining as [|c remaining].
    { simpl. intros H. inversion H. exists []. rewrite !app_nil_r.
      split; [reflexivity|]. split; [constructor | now destruct w]. }
    cbn [embed_batches]. unfold bind, try_catch, throw.
    assert (Hpos : (1 <= length (c :: remaining))%nat) by (simpl; lia).
    remember (c :: remaining) as todo eqn:Htodo. clear Htodo.
    pose proof (promise_all_embeddings (firstn 10 todo) w) as Hbatch.
    destruct (promise_all _ w) as [[batch|e] w1]; cbn [fst snd] in *;
      [|discriminate].
    destruct (Hbatch batch eq_refl) as (Hall & ->).
    intros H. pose proof H as H'.
    apply IH in H as (new & -> & Hnew & Hw).
    + exists (batch ++ new). rewrite <- app_assoc. split; [reflexivity|].
      split.
      * rewrite <- (firstn_skipn 10 todo) at 1.
        apply Forall2_app; [exact Hall | exact Hnew].
      * rewrite Hw. simpl. rewrite <- app_assoc, <- List.map_app, firstn_skipn.
        reflexivity.
    + rewrite length_skipn. lia.
Qed.

End EmbeddingMore.

(** X12.  When [generateEmbeddingsBatch] succeeds, it returns one vector per
    chunk, in the order of the chunks: the vector at a position is the array
    the provider answered for the chunk at that position, no chunk is blank,
    and exactly one request per chunk was sent, in that order. *)
Theorem generateEmbeddingsBatch_positional :
  forall (chunks : list jsstring) (w : World) (vectors : list (list json)),
    fst (Rag.generateEmbeddingsBatch chunks w) = Ok vectors ->
    Forall2 (fun chunk vector =>
               len (trim chunk) <> 0
               /\ provider w (Rag.embedding_request chunk) = inr (JArr vector))
            chunks vectors
    /\ llm_log (snd (Rag.generateEmbeddingsBatch chunks w))
       = llm_log w ++ List.map Rag.embedding_request chunks.
Proof.
  intros chunks w vectors H. unfold Rag.generateEmbeddingsBatch in *.
  apply EmbeddingMore.embed_batches_positional in H as (new & -> & Hall & ->);
    [|lia].
  split; [exact Hall | reflexivity].
Qed.

Lemma generateEmbeddingsBatch_positional_witness :
  Forall2 (fun chunk vector =>
             len (trim chunk) <> 0
             /\ provider (world_with unit_embedding) (Rag.embedding_request chunk)
                = inr (JArr vector))
          [js "First."; js "Second."] [[JNum 1]; [JNum 1]]
  /\ llm_log (snd (Rag.generateEmbeddingsBatch [js "First."; js "Second."]
                     (world_with unit_embedding)))
     = llm_log (world_with unit_embedding)
       ++ List.map Rag.embedding_request [js "First."; js "Second."].
Proof.
  apply (generateEmbeddingsBatch_positional [js "First."; js "Second."]
           (world_with unit_embedding)).
  reflexivity.
Defined.

(** X13.  A batch that holds a blank chunk fails as a whole: no partial list
    of vectors is returned. *)
Theorem generateEmbeddingsBatch_rejects_blank_chunk :
  forall (chunks : list jsstring) (w : World) (chunk : jsstring),
    In chunk chunks -> len (trim chunk) = 0 ->
    exists e, fst (Rag.generateEmbeddingsBatch chunks w) = Throw e.
Proof.
  intros chunks w chunk Hin Hblank.
  destruct (fst (Rag.generateEmbeddingsBatch chunks w)) as [vectors|e] eqn:E;
    [|now exists e].
  unfold Rag.generateEmbeddingsBatch in E.
  apply EmbeddingMore.embed_batches_positional in E as (new & _ & Hall & _);
    [|lia].
  exfalso. induction Hall as [|t v ts vs [Hne _] _ IH]; [contradiction|].
  destruct Hin as [->|Hin]; [contradiction | now apply IH].
Qed.

Lemma generateEmbeddingsBatch_rejects_blank_chunk_witness :
  exists e,
    fst (Rag.generateEmbeddingsBatch [js "First."; js "  "]
           (world_with unit_embedding)) = Throw e.
Proof.
  apply (generateEmbeddingsBatch_rejects_blank_chunk
           [js "First."; js "  "] (world_with unit_embedding) (js "  ")).
  - right. now left.
  - reflexivity.
Defined.

(** ** Vector search *)

Module SearchMore.
Import Db.

Lemma search_rows_above (dist : list json -> list json -> Q) (t : Tables)
    (projectId : Z) (vector : list json) (limit : Z) (threshold : Q) :
  List.Forall (fun r => (threshold < row_similarity r)%Q)
    (search_rows dist t projectId vector limit threshold).
Proof.
  rewrite SearchFacts.search_rows_ranked. apply List.Forall_forall. intros r Hr.
  apply SearchFacts.In_firstn in Hr.
  apply (Permutation_in _ (SearchFacts.order_by_perm _)) in Hr.
  unfold above in Hr. apply List.filter_In in Hr as [_ Hr].
  now apply SearchFacts.Qlt_bool_true.
Qed.

Lemma search_rows_length (dist : list json -> list json -> Q) (t : Tables)
    (projectId : Z) (vector : list json) (limit : Z) (threshold : Q) :
  (length (search_rows dist t projectId vector limit threshold) <= Z.to_nat limit)%nat.
Proof. unfold search_rows. rewrite length_firstn. lia. Qed.

Lemma vectorSearch_rows (projectId : Z) (vector : list json) (limit : Z)
    (threshold : Q) (w : World) (rows : list SearchRow) :
  fst (vectorSearch projectId vector limit threshold w) = Ok rows ->
  List.Forall (fun r => (threshold < row_similarity r)%Q) rows
  /\ (length rows <= Z.to_nat limit)%nat.
Proof.
  destruct (vectorSearch projectId vector limit threshold w) as [r w'] eqn:E.
  simpl. intros ->.
  apply SearchFacts.vectorSearch_result in E as [->| ->].
  - split; [constructor | simpl; lia].
  - split; [apply search_rows_above | apply search_rows_length].
Qed.


End SearchMore.



(** X15.  The storage search ([vectorSearch] of [db.ts]) only reads: the
    tables are the same after it, whatever its outcome.  When it succeeds it
    returns at most [limit] rows.  Without database handle it returns no row
    and sends no query. *)
Theorem db_vectorSearch_reads_only :
  forall (projectId : Z) (vector : list json) (limit : Z) (threshold : Q)
         (w : World),
    tables (snd (Db.vectorSearch projectId vector limit threshold w)) = tables w
    /\ (forall rows,
          fst (Db.vectorSearch projectId vector limit threshold w) = Ok rows ->
          (length rows <= Z.to_nat limit)%nat)
    /\ (connected w = false ->
        Db.vectorSearch projectId vector limit threshold w = (Ok [], w)).
Proof.
  intros projectId vector limit threshold w. split; [|split].
  - apply SearchFacts.vectorSearch_tables.
  - intros rows H. now apply SearchMore.vectorSearch_rows in H.
  - intros Hc. unfold Db.vectorSearch, bind, getDb, ask, ret. now rewrite Hc.
Qed.

Lemma db_vectorSearch_reads_only_witness :
  Db.vectorSearch 1 [JNum 1] 5 (7 # 10) (world_without_database unit_embedding)
  = (Ok [], world_without_database unit_embedding).
Proof.
  apply (proj2 (proj2 (db_vectorSearch_reads_only 1 [JNum 1] 5 (7 # 10)
                         (world_without_database unit_embedding)))).
  reflexivity.
Defined.

(** ** What document processing stores *)

Module StorageMore.
Import MonadFacts Db Rag.

(** *** The three writes *)

Lemma createDocumentChunkBatch_run (chunks : list InsertDocumentChunk) (w : World) :
  createDocumentChunkBatch chunks w
  = if connected w then
      let w1 := with_outcomes (tl (query_outcomes w)) w in
      match hd None (query_outcomes w) with
      | Some e => (Throw e, w1)
      | None =>
          let rows := insert_chunks (chunk_seq (tables w)) chunks in
          (Ok rows,
           with_tables
             {| documents := documents (tables w);
                documentChunks := documentChunks (tables w) ++ rows;
                embeddings := embeddings (tables w);
                usageTracking := usageTracking (tables w);
                chunk_seq := chunk_seq (tables w) + len_rows rows;
                embedding_seq := embedding_seq (tables w);
                usage_seq := usage_seq (tables w) |} w1)
      end
    else (Throw not_available, w).
Proof.
  unfold createDocumentChunkBatch, bind, getDb, ask, query, throw.
  destruct (connected w); simpl; [|reflexivity].
  destruct (hd None (query_outcomes w)); reflexivity.
Qed.

Lemma createEmbeddingBatch_run (l : list InsertEmbedding) (w : World) :
  createEmbeddingBatch l w
  = if connected w then
      let w1 := with_outcomes (tl (query_outcomes w)) w in
      match hd None (query_outcomes w) with
      | Some e => (Throw e, w1)
      | None =>
          let rows := insert_embeddings (embedding_seq (tables w)) l in
          (Ok rows,
           with_tables
             {| documents := documents (tables w);
                documentChunks := documentChunks (tables w);
                embeddings := embeddings (tables w) ++ rows;
                usageTracking := usageTracking (tables w);
                chunk_seq := chunk_seq (tables w);
                embedding_seq := embedding_seq (tables w) + len_rows rows;
                usage_seq := usage_seq (tables w) |} w1)
      end
    else (Throw not_available, w).
Proof.
  unfold createEmbeddingBatch, bind, getDb, ask, query, throw.
  destruct (connected w); simpl; [|reflexivity].
  destruct (hd None (query_outcomes w)); reflexivity.
Qed.

(** *** Rows are only added *)

Lemma only_appended_start (w : World) (documentId : Z) :
  only_appended (tables w) documentId w.
Proof.
  repeat split; auto; exists []; now rewrite app_nil_r.
Qed.

Lemma only_appended_updateDocument (t : Tables) (id : Z) (u : DocumentUpdates) :
  stable (only_appended t id) (updateDocument id u).
Proof.
  intros w Hw. rewrite ProcessFacts.updateDocument_run.
  destruct (connected w); [|exact Hw]. simpl.
  destruct (hd None (query_outcomes w)); [exact Hw|].
  destruct Hw as (Hc & He & Hd & Hu). repeat split; auto.
  intros other Hne. simpl. rewrite lookup_alter_ne by congruence. now apply Hd.
Qed.

Lemma only_appended_createDocumentChunkBatch (t : Tables) (id : Z)
    (chunks : list InsertDocumentChunk) :
  stable (only_appended t id) (createDocumentChunkBatch chunks).
Proof.
  intros w Hw. rewrite createDocumentChunkBatch_run.
  destruct (connected w); [|exact Hw]. simpl.
  destruct (hd None (query_outcomes w)); [exact Hw|].
  destruct Hw as ([added Hc] & He & Hd & Hu). repeat split; auto.
  simpl. rewrite Hc, <- app_assoc. now eexists.
Qed.

Lemma only_appended_createEmbeddingBatch (t : Tables) (id : Z)
    (l : list InsertEmbedding) :
  stable (only_appended t id) (createEmbeddingBatch l).
Proof.
  intros w Hw. rewrite createEmbeddingBatch_run.
  destruct (connected w); [|exact Hw]. simpl.
  destruct (hd None (query_outcomes w)); [exact Hw|].
  destruct Hw as (Hc & [added He] & Hd & Hu). repeat split; auto.
  simpl. rewrite He, <- app_assoc. now eexists.
Qed.

Lemma only_appended_processDocument (t : Tables) (documentId projectId : Z)
    (content : jsstring) :
  stable (only_appended t documentId)
    (processDocument documentId projectId content).
Proof.
  unfold processDocument. apply stable_try_catch.
  - unfold processDocument_try.
    apply stable_bind; [apply only_appended_updateDocument|]. intros _.
    apply stable_bind; [apply stable_ask|]. intros cfg.
    destruct (length _ =? 0)%nat; [apply stable_throw|].
    apply stable_bind; [apply only_appended_createDocumentChunkBatch|].
    intros createdChunks.
    apply stable_bind; [apply ProcessFacts.generateEmbeddingsBatch_stable; auto|].
    intros embeddings.
    destruct (negb _); [apply stable_throw|].
    apply stable_bind; [apply only_appended_createEmbeddingBatch|]. intros _.
    apply stable_bind; [apply only_appended_updateDocument|]. intros _.
    apply stable_ret.
  - intros e. unfold processDocument_catch.
    apply stable_bind; [apply only_appended_updateDocument|]. intros _.
    apply stable_throw.
Qed.

End StorageMore.

(** X16.  [processDocument] never removes or rewrites what is stored: after
    a run, whatever its outcome, the chunk rows and the embedding rows that
    existed are still there, in front of the rows the run added; no document
    other than the one processed has changed; the usage records are
    untouched. *)
Theorem processDocument_only_appends :
  forall (documentId projectId : Z) (content : jsstring) (w : World),
    let w' := snd (Rag.processDocument documentId projectId content w) in
    (exists added,
        documentChunks (tables w') = documentChunks (tables w) ++ added)
    /\ (exists added,
          embeddings (tables w') = embeddings (tables w) ++ added)
    /\ (forall other, other <> documentId ->
          documents (tables w') !! other = documents (tables w) !! other)
    /\ usageTracking (tables w') = usageTracking (tables w).
Proof.
  intros documentId projectId content w.
  apply (StorageMore.only_appended_processDocument (tables w) documentId
           projectId content w).
  apply StorageMore.only_appended_start.
Qed.

Lemma processDocument_only_appends_witness :
  documents (tables (ingested 0 [])) !! 2
  = documents (tables (ingest_world 0 [])) !! 2.
Proof.
  destruct (processDocument_only_appends 1 1 (doc_content guide)
              (ingest_world 0 [])) as (_ & _ & Hother & _).
  apply Hother. discriminate.
Defined.

Module StoredMore.
Import Db Rag.

Lemma mapi_from_contents (documentId projectId : Z) (chunks : list jsstring) :
  forall i seq,
    List.map dc_content
      (insert_chunks seq
         (Context.mapi_from (fun index chunk =>
            {| idc_documentId := documentId; idc_projectId := projectId;
               idc_content := chunk; idc_chunkIndex := Z.of_nat index;
               idc_tokenCount := Context.estimateTokens chunk |}) i chunks))
    = chunks.
Proof.
  induction chunks as [|c chunks IH]; intros i seq; simpl;
    [reflexivity | now rewrite IH].
Qed.

Lemma mapi_from_indexes (documentId projectId : Z) (chunks : list jsstring) :
  forall i seq,
    List.map dc_chunkIndex
      (insert_chunks seq
         (Context.mapi_from (fun index chunk =>
            {| idc_documentId := documentId; idc_projectId := projectId;
               idc_content := chunk; idc_chunkIndex := Z.of_nat index;
               idc_tokenCount := Context.estimateTokens chunk |}) i chunks))
    = List.map Z.of_nat (List.seq i (length chunks)).
Proof.
  induction chunks as [|c chunks IH]; intros i seq; simpl;
    [reflexivity | now rewrite IH].
Qed.

Lemma mapi_from_owner (documentId projectId : Z) (chunks : list jsstring) :
  forall i seq,
    List.Forall (fun c => dc_documentId c = documentId /\ dc_projectId c = projectId)
      (insert_chunks seq
         (Context.mapi_from (fun index chunk =>
            {| idc_documentId := documentId; idc_projectId := projectId;
               idc_content := chunk; idc_chunkIndex := Z.of_nat index;
               idc_tokenCount := Context.estimateTokens chunk |}) i chunks)).
Proof.
  induction chunks as [|c chunks IH]; intros i seq; simpl; constructor; auto.
Qed.

Lemma insert_chunks_ids (chunks : list InsertDocumentChunk) :
  forall seq,
    List.map dc_id (insert_chunks seq chunks)
    = List.map (fun k => seq + Z.of_nat k) (List.seq 0 (length chunks)).
Proof.
  induction chunks as [|c chunks IH]; intros seq; simpl; [reflexivity|].
  rewrite IH, <- seq_shift, List.map_map. f_equal; [lia|].
  apply List.map_ext. intros k. lia.
Qed.

(** One embedding row per vector, attached to the chunk row at the same
    position. *)
Lemma embedding_rows_spec (documentId projectId : Z) (model : jsstring)
    (vectors : list (list json)) :
  forall (created : list DocumentChunk) seq,
    length vectors = length created ->
    let rows := insert_embeddings seq
                  (embedding_rows documentId projectId model vectors created) in
    List.map e_chunkId rows = List.map dc_id created
    /\ List.map e_vector rows = vectors
    /\ List.Forall (fun e => e_documentId e = documentId
                             /\ e_projectId e = projectId
                             /\ e_model e = model) rows.
Proof.
  unfold embedding_rows.
  induction vectors as [|v vectors IH]; intros [|c created] seq Hlen;
    simpl in *; try discriminate.
  - repeat split; constructor.
  - destruct (IH created (seq + 1)) as (H1 & H2 & H3); [lia|].
    repeat split; [now rewrite H1 | now rewrite H2 | constructor; auto].
Qed.

(** The tables after a run whose [try] block went through. *)
Lemma processDocument_try_stored (documentId projectId : Z)
    (content : jsstring) (w : World) :
  fst (processDocument_try documentId projectId content w) = Ok tt ->
  let chunks := Segmenter.intelligentChunk content (CHUNK_SIZE (config w)) in
  let created :=
    insert_chunks (chunk_seq (tables w)) (chunk_rows documentId projectId chunks) in
  exists vectors,
    chunks <> []
    /\ Forall2 (fun chunk vector =>
                  provider w (embedding_request chunk) = inr (JArr vector))
               chunks vectors
    /\ documentChunks
         (tables (snd (processDocument_try documentId projectId content w)))
       = documentChunks (tables w) ++ created
    /\ embeddings
         (tables (snd (processDocument_try documentId projectId content w)))
       = embeddings (tables w)
         ++ insert_embeddings (embedding_seq (tables w))
              (embedding_rows documentId projectId (EMBEDDING_MODEL (config w))
                 vectors created).
Proof.
  intros Hok chunks created.
  destruct (processDocument_try documentId projectId content w) as [r w'] eqn:E.
  simpl in Hok. subst r. simpl snd. revert E.
  unfold processDocument_try. unfold bind at 1.
  rewrite ProcessFacts.updateDocument_run.
  destruct (connected w) eqn:Hc; [|discriminate]. cbn zeta.
  destruct (hd None (query_outcomes w)) eqn:Ho1; [discriminate|].
  unfold bind at 1. unfold ask. cbn [config with_tables with_outcomes].
  fold chunks.
  destruct (length chunks =? 0)%nat eqn:Hn; [discriminate|].
  unfold bind at 1. rewrite StorageMore.createDocumentChunkBatch_run.
  cbn [connected with_tables with_outcomes query_outcomes tables]. rewrite Hc.
  cbn zeta. destruct (hd None (tl (query_outcomes w))) eqn:Ho2; [discriminate|].
  cbn [set_documents chunk_seq]. fold created.
  unfold bind at 1.
  match goal with
  | |- context [generateEmbeddingsBatch chunks ?w2] =>
      pose proof (EmbeddingMore.embed_batches_positional (length chunks) chunks []
                    w2) as Hemb;
      unfold generateEmbeddingsBatch;
      destruct (embed_batches (length chunks) chunks [] w2) as [[vectors|e] w3]
  end; [|discriminate].
  destruct (Hemb vectors (le_n _) eq_refl) as (new & Hnew & Hall & Hw3).
  simpl in Hnew, Hw3. subst new w3.
  cbn [provider with_tables with_outcomes] in Hall.
  destruct (negb (length vectors =? length created)%nat) eqn:Hlen; [discriminate|].
  apply negb_false_iff, Nat.eqb_eq in Hlen.
  unfold bind at 1. rewrite StorageMore.createEmbeddingBatch_run.
  cbn [connected with_log with_tables with_outcomes query_outcomes tables].
  rewrite Hc. cbn zeta.
  destruct (hd None (tl (tl (query_outcomes w)))) eqn:Ho3; [discriminate|].
  unfold bind at 1. rewrite ProcessFacts.updateDocument_run.
  cbn [connected with_log with_tables with_outcomes query_outcomes tables].
  rewrite Hc. cbn zeta.
  destruct (hd None (tl (tl (tl (query_outcomes w))))) eqn:Ho4; [discriminate|].
  unfold ret. intros E. inversion E; subst w'; clear E. exists vectors. split.
  { intros E. rewrite E in Hn. discriminate. }
  split.
  { eapply Forall2_impl; [exact Hall|]. intros chunk vector [_ H]. exact H. }
  cbn. split; reflexivity.
Qed.

End StoredMore.

(** X17.  When [processDocument] completes without error, it has stored the
    chunks of [intelligentChunk] and nothing else, behind the rows that were
    there: one chunk row per chunk, in segmentation order, numbered from 0
    without gap and carrying the document and project ids; and one embedding
    row per chunk row, at the same position, attached to that chunk row and
    holding the vector the provider answered for that chunk, tagged with the
    document, the project and the configured model. *)
Theorem processDocument_stores_chunks_and_embeddings :
  forall (documentId projectId : Z) (content : jsstring) (w : World),
    fst (Rag.processDocument documentId projectId content w) = Ok tt ->
    let chunks := Segmenter.intelligentChunk content (CHUNK_SIZE (config w)) in
    let w' := snd (Rag.processDocument documentId projectId content w) in
    exists newChunks newEmbeddings,
      documentChunks (tables w') = documentChunks (tables w) ++ newChunks
      /\ embeddings (tables w') = embeddings (tables w) ++ newEmbeddings
      /\ chunks <> []
      /\ List.map dc_content newChunks = chunks
      /\ List.map dc_chunkIndex newChunks
         = List.map Z.of_nat (List.seq 0 (length chunks))
      /\ List.Forall (fun c => dc_documentId c = documentId
                               /\ dc_projectId c = projectId) newChunks
      /\ List.map e_chunkId newEmbeddings = List.map dc_id newChunks
      /\ Forall2 (fun chunk e =>
                    provider w (Rag.embedding_request chunk)
                    = inr (JArr (e_vector e)))
                 chunks newEmbeddings
      /\ List.Forall (fun e => e_documentId e = documentId
                               /\ e_projectId e = projectId
                               /\ e_model e = EMBEDDING_MODEL (config w))
           newEmbeddings.
Proof.
  intros documentId projectId content w Hok chunks w'. subst w'.
  revert Hok. unfold Rag.processDocument, try_catch.
  pose proof (StoredMore.processDocument_try_stored documentId projectId content w)
    as Htry.
  destruct (Rag.processDocument_try documentId projectId content w)
    as [[[]|e] w1]; simpl in Htry.
  - intros _. destruct (Htry eq_refl) as (vectors & Hne & Hall & Hc & He).
    fold chunks in Hne, Hall, Hc, He.
    set (created := Db.insert_chunks (chunk_seq (tables w))
                      (Rag.chunk_rows documentId projectId chunks)) in *.
    assert (Hlen : length vectors = length created).
    { apply Forall2_length in Hall. unfold created, Rag.chunk_rows.
      rewrite CountFacts.insert_chunks_length, CountFacts.mapi_from_length.
      lia. }
    destruct (StoredMore.embedding_rows_spec documentId projectId
                (EMBEDDING_MODEL (config w)) vectors created
                (embedding_seq (tables w)) Hlen) as (Hids & Hvec & Hown).
    eexists created, _. simpl. split; [exact Hc|]. split; [exact He|].
    split; [exact Hne|].
    split; [apply StoredMore.mapi_from_contents|].
    split; [apply StoredMore.mapi_from_indexes|].
    split; [apply StoredMore.mapi_from_owner|].
    split; [exact Hids|]. split; [|exact Hown].
    rewrite <- Hvec in Hall.
    apply Forall2_fmap_r in Hall. exact Hall.
  - unfold Rag.processDocument_catch, bind, throw.
    destruct (Db.updateDocument documentId _ w1) as [[u|e'] w2]; discriminate.
Qed.

Lemma processDocument_stores_chunks_and_embeddings_witness :
  exists newChunks newEmbeddings,
    documentChunks (tables (ingested 0 [])) = [] ++ newChunks
    /\ embeddings (tables (ingested 0 [])) = [] ++ newEmbeddings
    /\ List.map dc_content newChunks = [js "Hello world."]
    /\ List.map e_chunkId newEmbeddings = List.map dc_id newChunks.
Proof.
  destruct (processDocument_stores_chunks_and_embeddings 1 1 (doc_content guide)
              (ingest_world 0 []))
    as (newChunks & newEmbeddings & H1 & H2 & _ & H4 & _ & _ & H7 & _).
  - vm_compute. reflexivity.
  - exists newChunks, newEmbeddings. repeat split; assumption.
Defined.

(** ** Crawl rate limit *)

Module CrawlMore.
Import Crawl.

Lemma canCrawlDomain_other (now : Z) (domain other : jsstring) (maxPerMinute : Z)
    (counts : gmap jsstring CrawlRecord) :
  other <> domain ->
  snd (canCrawlDomain now domain maxPerMinute counts) !! other = counts !! other.
Proof.
  intros Hne. unfold canCrawlDomain.
  destruct (counts !! domain) as [record|]; simpl.
  - destruct (resetAt record <? now); simpl;
      [now rewrite lookup_insert_ne by congruence|].
    destruct (count record <? maxPerMinute); simpl;
      [now rewrite lookup_insert_ne by congruence | reflexivity].
  - now rewrite lookup_insert_ne by congruence.
Qed.

Lemma crawl_calls_other (times : list Z) (domain other : jsstring)
    (maxPerMinute : Z) :
  other <> domain ->
  forall counts,
    snd (crawl_calls times domain maxPerMinute counts) !! other = counts !! other.
Proof.
  intros Hne. induction times as [|now later IH]; intros counts; simpl;
    [reflexivity|].
  pose proof (canCrawlDomain_other now domain other maxPerMinute counts Hne) as H1.
  destruct (canCrawlDomain now domain maxPerMinute counts) as [answer counts1].
  specialize (IH counts1).
  destruct (crawl_calls later domain maxPerMinute counts1) as [answers counts2].
  simpl in *. congruence.
Qed.

(** Inside a window the counter decides alone. *)
Lemma crawl_calls_in_window (domain : jsstring) (maxPerMinute : Z)
    (later : list Z) :
  forall (c R : Z) (counts : gmap jsstring CrawlRecord),
    counts !! domain = Some {| count := c; resetAt := R |} ->
    List.Forall (fun t => t <= R) later ->
    fst (crawl_calls later domain maxPerMinute counts)
    = List.map (fun j => c + Z.of_nat j <? maxPerMinute)
        (List.seq 0 (length later)).
Proof.
  induction later as [|now later IH]; intros c R counts Hrec Hall; [reflexivity|].
  inversion Hall as [|? ? Hnow Hlater]; subst.
  cbn [crawl_calls]. unfold canCrawlDomain. rewrite Hrec. cbn [resetAt count].
  replace (R <? now) with false by (symmetry; apply Z.ltb_ge; lia).
  destruct (Z.ltb_spec c maxPerMinute) as [Hlt|Hge].
  - specialize (IH (c + 1) R
                  (<[domain := {| count := c + 1; resetAt := R |}]> counts)).
    destruct (crawl_calls later domain maxPerMinute _) as [answers counts2].
    simpl in IH |- *. rewrite IH; [|apply lookup_insert_eq | exact Hlater].
    f_equal; [symmetry; apply Z.ltb_lt; lia|].
    rewrite <- seq_shift, List.map_map. apply List.map_ext. intros j.
    f_equal. lia.
  - specialize (IH c R counts Hrec Hlater).
    destruct (crawl_calls later domain maxPerMinute counts) as [answers counts2].
    simpl in IH |- *. rewrite IH.
    f_equal; [symmetry; apply Z.ltb_ge; lia|].
    rewrite <- seq_shift, List.map_map. apply List.map_ext. intros j.
    transitivity false; [|symmetry]; apply Z.ltb_ge; lia.
Qed.

End CrawlMore.

(** X18.  [canCrawlDomain] grants at most [max(1, maxPerMinute)] crawls per
    window: when a domain that has no record (or whose window is over) is
    asked for at time [t0] and then again at times not later than
    [t0 + 60000], the call of rank [k] (from 0) is granted exactly when
    [k < max(1, maxPerMinute)].  The records of the other domains are not
    touched. *)
Theorem canCrawlDomain_grants_at_most_max_per_window :
  forall (t0 : Z) (later : list Z) (domain : jsstring) (maxPerMinute : Z)
         (counts : gmap jsstring Crawl.CrawlRecord),
    match counts !! domain with
    | None => True
    | Some record => Crawl.resetAt record < t0
    end ->
    List.Forall (fun t => t <= t0 + 60000) later ->
    fst (Crawl.crawl_calls (t0 :: later) domain maxPerMinute counts)
    = List.map (fun k => Z.of_nat k <? Z.max 1 maxPerMinute)
        (List.seq 0 (S (length later)))
    /\ (forall other, other <> domain ->
          snd (Crawl.crawl_calls (t0 :: later) domain maxPerMinute counts) !! other
          = counts !! other).
Proof.
  intros t0 later domain maxPerMinute counts Hfresh Hlater. split.
  - cbn [Crawl.crawl_calls].
    assert (Hfirst : Crawl.canCrawlDomain t0 domain maxPerMinute counts
                     = (true, <[domain := {| Crawl.count := 1;
                                             Crawl.resetAt := t0 + 60000 |}]> counts)).
    { unfold Crawl.canCrawlDomain.
      destruct (counts !! domain) as [record|]; [|reflexivity].
      now replace (Crawl.resetAt record <? t0) with true
        by (symmetry; apply Z.ltb_lt; lia). }
    rewrite Hfirst.
    pose proof (CrawlMore.crawl_calls_in_window domain maxPerMinute later 1
                  (t0 + 60000)
                  (<[domain := {| Crawl.count := 1;
                                  Crawl.resetAt := t0 + 60000 |}]> counts)
                  (lookup_insert_eq _ _ _) Hlater) as Hrest.
    destruct (Crawl.crawl_calls later domain maxPerMinute _) as [answers counts2].
    cbn [fst] in Hrest |- *. rewrite Hrest.
    change (List.seq 0 (S (length later)))
      with (0%nat :: List.seq 1 (length later)).
    cbn [List.map]. f_equal; [symmetry; apply Z.ltb_lt; lia|].
    rewrite <- seq_shift, List.map_map. apply List.map_ext. intros j.
    destruct (Z.ltb_spec (1 + Z.of_nat j) maxPerMinute);
      destruct (Z.ltb_spec (Z.of_nat (S j)) (Z.max 1 maxPerMinute)); auto; lia.
  - intros other Hne. now apply CrawlMore.crawl_calls_other.
Qed.

Lemma canCrawlDomain_grants_at_most_max_per_window_witness :
  fst (Crawl.crawl_calls [1000; 1001; 2000; 61000] (js "example.com") 2 ∅)
  = [true; true; false; false].
Proof.
  destruct (canCrawlDomain_grants_at_most_max_per_window 1000
              [1001; 2000; 61000] (js "example.com") 2 ∅) as [H _].
  - vm_compute. exact I.
  - repeat constructor; lia.
  - exact H.
Defined.

(** ** Usage records and limits *)

Module UsageMore.
Import Db Billing.

Lemma usage_matches_true (userId projectId : Z) (month : jsstring)
    (u : UsageTracking) :
  usage_matches userId projectId month u = true <->
  u_userId u = userId /\ u_projectId u = projectId /\ u_month u = month.
Proof.
  unfold usage_matches. rewrite !andb_true_iff, !Z.eqb_eq, bool_decide_eq_true.
  tauto.
Qed.

Lemma first_match_app (f : UsageTracking -> bool) (l : list UsageTracking)
    (row : UsageTracking) :
  firstn 1 (List.filter f l) = [] -> f row = true ->
  firstn 1 (List.filter f (l ++ [row])) = [row].
Proof.
  intros Hnone Hrow. rewrite List.filter_app. simpl. rewrite Hrow.
  destruct (List.filter f l); [reflexivity | discriminate].
Qed.



End UsageMore.

(** X19.  [getOrCreateUsageTracking] returns the record of the user, project
    and month asked for, and that record is in the table afterwards.  Asking
    again, when the storage lets the query through, returns the same record
    and leaves the tables as they are: no second record is created. *)
Theorem getOrCreateUsageTracking_round_trip :
  forall (userId projectId : Z) (month : jsstring) (w : World)
         (row : UsageTracking),
    fst (Db.getOrCreateUsageTracking userId projectId month w) = Ok row ->
    let w1 := snd (Db.getOrCreateUsageTracking userId projectId month w) in
    (u_userId row = userId /\ u_projectId row = projectId /\ u_month row = month)
    /\ In row (usageTracking (tables w1))
    /\ (accepts_next_write w1 ->
        fst (Db.getOrCreateUsageTracking userId projectId month w1) = Ok row
        /\ tables (snd (Db.getOrCreateUsageTracking userId projectId month w1))
           = tables w1).
Proof.
  intros userId projectId month w row.
  unfold accepts_next_write.
  unfold Db.getOrCreateUsageTracking, bind, getDb, ask, ret, throw, query.
  destruct (connected w) eqn:Hc; simpl; [|discriminate].
  destruct (hd None (query_outcomes w)) eqn:Ho1; simpl; [discriminate|].
  destruct (firstn 1 (List.filter (Db.usage_matches userId projectId month)
                        (usageTracking (tables w)))) as [|found rest] eqn:Hsel.
  - simpl. destruct (hd None (tl (query_outcomes w))) eqn:Ho2; simpl;
      [discriminate|].
    intros H. inversion H; subst; clear H. simpl.
    split; [auto|]. split; [apply in_or_app; right; now left|].
    rewrite Hc. intros [_ Ho3]. simpl in Ho3 |- *. rewrite Ho3. simpl.
    rewrite (UsageMore.first_match_app _ _ _ Hsel).
    + split; reflexivity.
    + apply UsageMore.usage_matches_true. auto.
  - simpl. intros H. inversion H; subst; clear H. simpl.
    assert (Hin : In row (List.filter (Db.usage_matches userId projectId month)
                            (usageTracking (tables w)))).
    { apply (SearchFacts.In_firstn 1). rewrite Hsel. now left. }
    apply List.filter_In in Hin as [Hin Hm].
    split; [now apply UsageMore.usage_matches_true|]. split; [exact Hin|].
    rewrite Hc. intros [_ Ho3]. simpl in Ho3 |- *. rewrite Ho3. simpl.
    rewrite Hsel. simpl. split; reflexivity.
Qed.

Lemma getOrCreateUsageTracking_round_trip_witness :
  exists row,
    fst (Db.getOrCreateUsageTracking 7 3 (js "2024-01")
           (world_with unit_embedding)) = Ok row
    /\ u_userId row = 7
    /\ messagesUsedMini row = 0
    /\ fst (Db.getOrCreateUsageTracking 7 3 (js "2024-01")
              (snd (Db.getOrCreateUsageTracking 7 3 (js "2024-01")
                      (world_with unit_embedding)))) = Ok row.
Proof.
  eexists.
  assert (Hrun : fst (Db.getOrCreateUsageTracking 7 3 (js "2024-01")
                        (world_with unit_embedding))
                 = Ok {| u_id := 1; u_userId := 7; u_projectId := 3;
                         u_month := js "2024-01"; messagesUsedMini := 0;
                         messagesUsedPremium := 0; indexedPagesUsed := 0 |})
    by reflexivity.
  split; [exact Hrun|].
  destruct (getOrCreateUsageTracking_round_trip 7 3 (js "2024-01")
              (world_with unit_embedding) _ Hrun) as ((Hu & _) & _ & Hagain).
  split; [exact Hu|]. split; [reflexivity|].
  apply Hagain. split; reflexivity.
Defined.



(** X21.  The enterprise plan is never refused: whatever the usage recorded
    and whatever the storage does, [checkUsageLimits] resolves with
    [{ allowed: true }]. *)
Theorem checkUsageLimits_enterprise_always_allowed :
  forall (userId projectId : Z) (w : World),
    fst (Billing.checkUsageLimits userId projectId enterprise w)
    = Ok {| Billing.allowed := true; Billing.reason := None |}.
Proof.
  intros userId projectId w.
  unfold Billing.checkUsageLimits, Billing.getCurrentMonth, bind, ask, ret,
    try_catch. simpl.
  destruct (Db.getOrCreateUsageTracking userId projectId
              (Billing.format_month (today w)) w) as [[usage|e] w1]; reflexivity.
Qed.

(** ** Reading back what was stored *)

Module ReadBackMore.
Import Db DbMore Rag.

(** Rows whose indexes already go up one by one come back in their order. *)
Lemma order_by_chunkIndex_ascending (rows : list DocumentChunk) :
  forall i,
    List.map dc_chunkIndex rows = List.map Z.of_nat (List.seq i (length rows)) ->
    order_by_chunkIndex rows = rows.
Proof.
  induction rows as [|c rows IH]; intros i H; [reflexivity|].
  simpl in H. injection H as Hc Hrest.
  simpl. rewrite (IH (S i) Hrest).
  destruct rows as [|c' rows']; [reflexivity|].
  simpl in Hrest. injection Hrest as Hc' _.
  simpl. rewrite Hc, Hc'.
  now replace (Z.of_nat (S i) <? Z.of_nat i) with false
    by (symmetry; apply Z.ltb_ge; lia).
Qed.

Lemma filter_none {A} (f : A -> bool) (l : list A) :
  List.Forall (fun x => f x = false) l -> List.filter f l = [].
Proof.
  induction 1 as [|x l Hx _ IH]; simpl; [reflexivity | now rewrite Hx].
Qed.

Lemma filter_all {A} (f : A -> bool) (l : list A) :
  List.Forall (fun x => f x = true) l -> List.filter f l = l.
Proof.
  induction 1 as [|x l Hx _ IH]; simpl; [reflexivity | now rewrite Hx, IH].
Qed.

Lemma processDocument_ok_is_try (documentId projectId : Z) (content : jsstring)
    (w : World) :
  fst (processDocument documentId projectId content w) = Ok tt ->
  processDocument documentId projectId content w
  = processDocument_try documentId projectId content w
  /\ fst (processDocument_try documentId projectId content w) = Ok tt.
Proof.
  unfold processDocument, try_catch.
  destruct (processDocument_try documentId projectId content w) as [[[]|e] w1].
  - now split.
  - unfold processDocument_catch, bind, throw.
    destruct (updateDocument documentId _ w1) as [[u|e'] w2]; discriminate.
Qed.

Lemma alter_missing (f : Document -> Document) (id : Z) (docs : gmap Z Document) :
  docs !! id = None -> alter f id docs = docs.
Proof.
  intros H. apply map_eq. intros k. rewrite lookup_alter.
  destruct (decide (id = k)) as [->|]; [now rewrite H | reflexivity].
Qed.

End ReadBackMore.

(** X22.  What [processDocument] stored is what [getDocumentChunks] reads
    back: after a run that completed without error on a document that had
    no chunk row before, and when the storage lets the query through,
    [getDocumentChunks] returns the chunks of [intelligentChunk], in
    segmentation order. *)
Theorem getDocumentChunks_after_processDocument :
  forall (documentId projectId : Z) (content : jsstring) (w : World),
    fst (Rag.processDocument documentId projectId content w) = Ok tt ->
    List.Forall (fun c => dc_documentId c <> documentId)
      (documentChunks (tables w)) ->
    let w' := snd (Rag.processDocument documentId projectId content w) in
    accepts_next_write w' ->
    exists rows,
      fst (DbMore.getDocumentChunks documentId w') = Ok rows
      /\ List.map dc_content rows
         = Segmenter.intelligentChunk content (CHUNK_SIZE (config w))
      /\ List.map dc_chunkIndex rows
         = List.map Z.of_nat (List.seq 0 (length rows)).
Proof.
  intros documentId projectId content w Hok Hold w' [Hc Ho]. subst w'.
  destruct (ReadBackMore.processDocument_ok_is_try _ _ _ _ Hok) as [Heq Htry].
  rewrite Heq in *.
  destruct (StoredMore.processDocument_try_stored _ _ _ _ Htry)
    as (vectors & _ & _ & Hchunks & _).
  set (chunks := Segmenter.intelligentChunk content (CHUNK_SIZE (config w))) in *.
  set (created := Db.insert_chunks (chunk_seq (tables w))
                    (Rag.chunk_rows documentId projectId chunks)) in *.
  unfold DbMore.getDocumentChunks, bind, getDb, ask, ret, query.
  rewrite Hc. simpl. rewrite Ho. simpl. rewrite Hchunks, List.filter_app.
  rewrite (ReadBackMore.filter_none _ (documentChunks (tables w))).
  2:{ eapply List.Forall_impl; [|exact Hold]. intros c Hne.
      now apply Z.eqb_neq. }
  rewrite (ReadBackMore.filter_all _ created).
  2:{ eapply List.Forall_impl; [|apply StoredMore.mapi_from_owner].
      intros c [Hd _]. now apply Z.eqb_eq. }
  simpl.
  assert (Hidx : List.map dc_chunkIndex created
                 = List.map Z.of_nat (List.seq 0 (length created))).
  { unfold created, Rag.chunk_rows.
    rewrite StoredMore.mapi_from_indexes, CountFacts.insert_chunks_length,
      CountFacts.mapi_from_length. reflexivity. }
  rewrite (ReadBackMore.order_by_chunkIndex_ascending created 0 Hidx).
  exists created. split; [reflexivity|]. split; [|exact Hidx].
  apply StoredMore.mapi_from_contents.
Qed.

Lemma getDocumentChunks_after_processDocument_witness :
  exists rows,
    fst (DbMore.getDocumentChunks 1 (ingested 0 [])) = Ok rows
    /\ List.map dc_content rows = [js "Hello world."].
Proof.
  destruct (getDocumentChunks_after_processDocument 1 1 (doc_content guide)
              (ingest_world 0 [])) as (rows & H1 & H2 & _).
  - vm_compute. reflexivity.
  - constructor.
  - split; reflexivity.
  - exists rows. split; [exact H1 | exact H2].
Defined.

(** X23.  A status write for a document id that is in no row neither fails
    nor creates the document: when the storage lets it through,
    [updateDocument] resolves with [undefined] and the documents are the
    same as before. *)
Theorem updateDocument_missing_document :
  forall (id : Z) (updates : Db.DocumentUpdates) (w : World),
    documents (tables w) !! id = None ->
    accepts_next_write w ->
    fst (Db.updateDocument id updates w) = Ok None
    /\ documents (tables (snd (Db.updateDocument id updates w)))
       = documents (tables w).
Proof.
  intros id updates w Hmissing [Hc Ho].
  rewrite ProcessFacts.updateDocument_run, Hc. simpl. rewrite Ho. simpl.
  rewrite Hmissing. split; [reflexivity|].
  now apply ReadBackMore.alter_missing.
Qed.

Lemma updateDocument_missing_document_witness :
  fst (Db.updateDocument 42
         {| Db.upd_status := Some failed; Db.upd_errorMessage := None |}
         (ingest_world 0 [])) = Ok None
  /\ documents (tables (snd (Db.updateDocument 42
         {| Db.upd_status := Some failed; Db.upd_errorMessage := None |}
         (ingest_world 0 [])))) = documents (tables (ingest_world 0 [])).
Proof.
  apply (updateDocument_missing_document 42 _ (ingest_world 0 [])).
  - reflexivity.
  - split; reflexivity.
Defined.

(** ** The answer and the chat turn *)

Module TurnMore.
Import MonadFacts Rag.

Lemma rag_vectorSearch_stable (I : World -> Prop) (projectId : Z)
    (query : jsstring) (limit : Z) (threshold : Q) :
  storage_blind I ->
  (forall w l, I w -> I (with_log l w)) ->
  stable I (Rag.vectorSearch projectId query limit threshold).
Proof.
  intros Hblind Hlog. unfold Rag.vectorSearch.
  destruct (len (trim query) =? 0); [apply stable_ret|].
  apply stable_try_catch; [|intros e; apply stable_ret].
  apply stable_bind.
  - apply ProcessFacts.generateEmbedding_stable. intros w Hw. now apply Hlog.
  - intros emb. apply stable_bind; [now apply RequestFacts.blind_vectorSearch|].
    intros rows. apply stable_ret.
Qed.

Lemma rag_vectorSearch_fails_soft_aux (projectId : Z) (query : jsstring)
    (limit : Z) (threshold : Q) (w : World) :
  exists chunks,
    fst (Rag.vectorSearch projectId query limit threshold w) = Ok chunks.
Proof.
  destruct (RequestFacts.vectorSearch_requests projectId query limit threshold
              (config w) (llm_log w) w
              (RequestFacts.only_requests_start _ _ w eq_refl)) as [_ H].
  exact H.
Qed.

End TurnMore.

(** X24.  [generateRAGResponse] sends exactly one request, whatever the
    outcome.  When the provider answers with a string at
    [choices[0].message.content], that string is returned as it is; when the
    provider fails, its error is passed on unchanged. *)
Theorem generateRAGResponse_outcomes :
  forall (query : jsstring) (context : Context.RAGContext)
         (model : Rag.ChatModel) (w : World),
    llm_log (snd (Rag.generateRAGResponse query context model w))
    = llm_log w ++ [Rag.answer_request query context]
    /\ (forall response content,
          provider w (Rag.answer_request query context) = inr response ->
          Rag.response_content response = JStr content ->
          fst (Rag.generateRAGResponse query context model w) = Ok content)
    /\ (forall e,
          provider w (Rag.answer_request query context) = inl e ->
          fst (Rag.generateRAGResponse query context model w) = Throw e).
Proof.
  intros query context model w. split; [|split].
  - apply RequestFacts.generateRAGResponse_log.
  - intros response content Hp Hc.
    rewrite (ResponseFacts.generateRAGResponse_answered _ _ _ _ _ Hp). simpl.
    now rewrite Hc.
  - intros e Hp. now apply ResponseFacts.generateRAGResponse_failed.
Qed.

Lemma generateRAGResponse_outcomes_witness :
  fst (Rag.generateRAGResponse (js "What is AI?") empty_context Rag.mini
         (world_with (fun _ =>
            inr (JObj [(js "choices",
                        JArr [JObj [(js "message",
                                     JObj [(js "content", JStr (js "Hi"))])]])]))))
  = Ok (js "Hi").
Proof.
  eapply (proj1 (proj2 (generateRAGResponse_outcomes (js "What is AI?")
                          empty_context Rag.mini _))).
  - reflexivity.
  - reflexivity.
Defined.

(** X25.  Retrieval never fails a chat turn: the response step of
    [sendMessage] rejects only with an error the provider gave to the request
    for the answer itself; no failure of the provider or of the storage
    while the query is embedded and searched reaches the caller. *)
Theorem sendMessage_respond_fails_only_on_answer :
  forall (input : Chat.ChatRequest) (w : World) (e : exn),
    fst (Chat.sendMessage_respond input w) = Throw e ->
    exists context,
      provider w (Rag.answer_request (Chat.req_message input) context) = inl e.
Proof.
  intros input w e. unfold Chat.sendMessage_respond.
  unfold bind at 1, ask. cbv beta iota.
  pose proof (TurnMore.rag_vectorSearch_stable
                (fun w' => provider w' = provider w)
                (Chat.req_projectId input) (Chat.req_message input)
                (VECTOR_SEARCH_TOP_K (config w))
                (VECTOR_SIMILARITY_THRESHOLD (config w))
                ltac:(intros ? ? ? H; exact H) ltac:(intros ? ? H; exact H)
                w eq_refl) as Hprov.
  destruct (TurnMore.rag_vectorSearch_fails_soft_aux (Chat.req_projectId input)
              (Chat.req_message input) (VECTOR_SEARCH_TOP_K (config w))
              (VECTOR_SIMILARITY_THRESHOLD (config w)) w) as [found Hok].
  unfold bind.
  destruct (Rag.vectorSearch (Chat.req_projectId input) (Chat.req_message input)
              (VECTOR_SEARCH_TOP_K (config w))
              (VECTOR_SIMILARITY_THRESHOLD (config w)) w) as [r w1].
  simpl in Hprov, Hok. subst r.
  set (context := Context.buildRAGContext found (MAX_CONTEXT_TOKENS (config w))).
  intros H. exists context.
  destruct (provider w1 (Rag.answer_request (Chat.req_message input) context))
    as [e'|response] eqn:Hp.
  - rewrite (ResponseFacts.generateRAGResponse_failed _ _ _ _ _ Hp) in H.
    inversion H; subst. now rewrite <- Hprov.
  - rewrite (ResponseFacts.generateRAGResponse_answered _ _ _ _ _ Hp) in H.
    discriminate.
Qed.

Lemma sendMessage_respond_fails_only_on_answer_witness :
  exists context,
    provider (world_with rate_limited)
      (Rag.answer_request (js "What is AI?") context)
    = inl (Error (js "Rate limit exceeded")).
Proof.
  apply (sendMessage_respond_fails_only_on_answer
           {| Chat.req_projectId := 1; Chat.req_message := js "What is AI?";
              Chat.req_model := Rag.mini |} (world_with rate_limited)).
  vm_compute. reflexivity.
Defined.
